(** * Sinewave speech: formant trajectory extraction

    A shallow embedding of the formant extraction engine of the
    sinewave-speech demo: the LPC analyzer (class [LPCAnalyzer]), the
    phoneme-table fallback (class [PhonemeMapper], js/phoneme-mapper.js) and
    the orchestrator (class [FormantPlayer], js/formant-player.js, in its
    version with LPC analysis).

    Conventions of the embedding.
    - JavaScript numbers are modelled by real numbers: [Math.sqrt], [Math.log],
      [Math.cos], [Math.atan2] and [Math.pow] are the real functions, and a
      comparison is the comparison of reals.  Rounding, infinities and NaN are
      outside the model.  The eigenvalue solver, whose control flow is what
      matters, is written over an arbitrary scalar type ([Scalar]) so that its
      theorems hold whatever the arithmetic does.
    - A typed array is a list; a read is [nth] and a write is [upd], which
      like a typed array ignores an index that is out of range.
    - A function that can throw returns an [outcome].
    - A [while] loop is a function with fuel returning [option]; termination
      is then a theorem (enough fuel gives [Some]). *)

From Stdlib Require Import String Ascii.
From Stdlib Require Import Reals Lra Lia List Bool Arith ZArith.
From Stdlib Require Import Permutation Sorted.
Import ListNotations.

(* ================================================================== *)
(** * Part I: definitions *)
(* ================================================================== *)

(** ** Outcomes: a returned value or a thrown exception *)

Inductive JSError : Type :=
| TypeError_notIterable      (* for (x of v) on a value that is not iterable *)
| RangeError_arrayLength     (* new Float32Array(n) with an invalid length *)
| WaveformSourceError.       (* the promise of ttsCapture.synthesize rejected *)

Inductive outcome (A : Type) : Type :=
| Returned (a : A)
| Thrown (e : JSError).
Arguments Returned {A} a.
Arguments Thrown {A} e.

Definition bind {A B : Type} (o : outcome A) (k : A -> outcome B) : outcome B :=
  match o with
  | Returned a => k a
  | Thrown e => Thrown e
  end.

Notation "x <- c ;; k" := (bind c (fun x => k))
  (at level 61, c at next level, right associativity).

(** ** Typed arrays as lists *)

(** [a[j] = v] on a typed array: nothing happens when [j] is out of range. *)
Fixpoint upd {A : Type} (l : list A) (j : nat) (v : A) : list A :=
  match l, j with
  | [], _ => []
  | _ :: t, O => v :: t
  | h :: t, S j' => h :: upd t j' v
  end.

(** ** Scalars of the eigenvalue solver *)

Class Scalar (F : Type) : Type := {
  s_zero : F;
  s_one : F;
  s_two : F;
  s_four : F;
  s_eps10 : F;                 (* 1e-10 *)
  s_eps15 : F;                 (* 1e-15 *)
  s_add : F -> F -> F;
  s_sub : F -> F -> F;
  s_mul : F -> F -> F;
  s_div : F -> F -> F;
  s_neg : F -> F;
  s_sqrt : F -> F;             (* Math.sqrt *)
  s_abs : F -> F;              (* Math.abs *)
  s_ltb : F -> F -> bool;      (* x < y *)
  s_geb : F -> F -> bool       (* x >= y *)
}.

Declare Scope scalar_scope.
Delimit Scope scalar_scope with s.
Notation "x + y" := (s_add x y) : scalar_scope.
Notation "x - y" := (s_sub x y) : scalar_scope.
Notation "x * y" := (s_mul x y) : scalar_scope.
Notation "x / y" := (s_div x y) : scalar_scope.
Notation "- x" := (s_neg x) : scalar_scope.
Notation "x <? y" := (s_ltb x y) : scalar_scope.
Notation "x >=? y" := (s_geb x y) (at level 70) : scalar_scope.

(** A root (eigenvalue) as the solver pushes it: [{ real, imag }]. *)
Record Root (F : Type) : Type := mkRoot { real : F; imag : F }.
Arguments mkRoot {F} real imag.
Arguments real {F} r.
Arguments imag {F} r.

Module QR.
Section Solver.
Context {F : Type} `{Scalar F}.
Local Open Scope scalar_scope.

Definition Matrix : Type := list (list F).

(** [H[i][j]] *)
Definition mget (M : Matrix) (i j : nat) : F := nth j (nth i M []) s_zero.

(** [H[i][j] = v] *)
Definition mset (M : Matrix) (i j : nat) (v : F) : Matrix :=
  upd M i (upd (nth i M []) j v).

Definition maxIter : nat := 50.

(** [wilkinsonShift(H, m)] *)
Definition wilkinsonShift (M : Matrix) (m : nat) : F :=
  if (m <? 2)%nat then mget M 0 0
  else
    let a := mget M (m - 2) (m - 2) in
    let b := mget M (m - 2) (m - 1) in
    let c := mget M (m - 1) (m - 2) in
    let d := mget M (m - 1) (m - 1) in
    let trace := a + d in
    let det := a * d - b * c in
    let disc := trace * trace - s_four * det in
    if disc >=? s_zero then
      let sqrtDisc := s_sqrt disc in
      let e1 := (trace + sqrtDisc) / s_two in
      let e2 := (trace - sqrtDisc) / s_two in
      if s_abs (e1 - d) <? s_abs (e2 - d) then e1 else e2
    else trace / s_two.

(** [for (let i = 0; i < m; i++) H[i][i] -= shift] *)
Definition subShift (M : Matrix) (m : nat) (shift : F) : Matrix :=
  fold_left (fun M i => mset M i i (mget M i i - shift)) (seq 0 m) M.

(** [for (let i = 0; i < m; i++) H[i][i] += shift] *)
Definition addShift (M : Matrix) (m : nat) (shift : F) : Matrix :=
  fold_left (fun M i => mset M i i (mget M i i + shift)) (seq 0 m) M.

(** The inner [j] loop of the first pass: rotate rows [i] and [i+1]. *)
Definition rotateRows (M : Matrix) (m i : nat) (c s : F) : Matrix :=
  fold_left
    (fun M j =>
       let temp := c * mget M i j + s * mget M (i + 1) j in
       let M1 := mset M (i + 1) j ((- s) * mget M i j + c * mget M (i + 1) j) in
       mset M1 i j temp)
    (seq 0 m) M.

(** The inner [j] loop of the second pass: rotate columns [i] and [i+1]. *)
Definition rotateCols (M : Matrix) (m i : nat) (c s : F) : Matrix :=
  fold_left
    (fun M j =>
       let temp := c * mget M j i + s * mget M j (i + 1) in
       let M1 := mset M j (i + 1) ((- s) * mget M j i + c * mget M j (i + 1)) in
       mset M1 j i temp)
    (seq 0 m) M.

(** First pass of [qrStep]: the Givens rotations, recording [cos] and [sin]. *)
Definition givensPass (M : Matrix) (m : nat) : Matrix * list (F * F) :=
  fold_left
    (fun (st : Matrix * list (F * F)) i =>
       let '(M, cs) := st in
       let a := mget M i i in
       let b := mget M (i + 1) i in
       let r := s_sqrt (a * a + b * b) in
       let c := if r <? s_eps15 then s_one else a / r in
       let s := if r <? s_eps15 then s_zero else b / r in
       (rotateRows M m i c s, cs ++ [(c, s)]))
    (seq 0 (m - 1)) (M, []).

(** Second pass of [qrStep]: apply the recorded rotations on the right. *)
Definition applyPass (M : Matrix) (m : nat) (cs : list (F * F)) : Matrix :=
  fold_left
    (fun M i =>
       let '(c, s) := nth i cs (s_zero, s_zero) in
       rotateCols M m i c s)
    (seq 0 (m - 1)) M.

(** [qrStep(H, m, shift)]; the code updates [H] in place. *)
Definition qrStep (M : Matrix) (m : nat) (shift : F) : Matrix :=
  let M1 := subShift M m shift in
  let '(M2, cs) := givensPass M1 m in
  let M3 := applyPass M2 m cs in
  addShift M3 m shift.

(** [k] successive shifted QR iterations, [qrStep(H, m, wilkinsonShift(H, m))]. *)
Definition qrIterate (k : nat) (M : Matrix) (m : nat) : Matrix :=
  Nat.iter k (fun M => qrStep M m (wilkinsonShift M m)) M.

(** State of the loops of [computeEigenvalues]. *)
Record LoopState : Type := mkLoop {
  ls_H : Matrix;
  ls_m : nat;
  ls_iter : nat;
  ls_eigenvalues : list (Root F)
}.

(** The inner loop [while (iter < maxIter) { ... }], from the state on entry
    of one test of its condition to the state on its exit (by [break] or by
    the condition failing). *)
Fixpoint innerLoop (fuel : nat) (st : LoopState) : option LoopState :=
  match fuel with
  | O => None
  | S fuel' =>
    let M := ls_H st in
    let m := ls_m st in
    if (ls_iter st <? maxIter)%nat then
      if (m =? 1)%nat then
        Some (mkLoop M 0 (ls_iter st)
                (ls_eigenvalues st ++ [mkRoot (mget M 0 0) s_zero]))
      else
        let subdiag := s_abs (mget M (m - 1) (m - 2)) in
        let diag := s_abs (mget M (m - 2) (m - 2)) + s_abs (mget M (m - 1) (m - 1)) in
        if subdiag <? s_eps10 * diag then
          Some (mkLoop M (m - 1) (ls_iter st)
                  (ls_eigenvalues st ++ [mkRoot (mget M (m - 1) (m - 1)) s_zero]))
        else
          let a := mget M (m - 2) (m - 2) in
          let b := mget M (m - 2) (m - 1) in
          let c := mget M (m - 1) (m - 2) in
          let d := mget M (m - 1) (m - 1) in
          let trace := a + d in
          let det := a * d - b * c in
          let disc := trace * trace - s_four * det in
          if (2 <=? m)%nat && (disc <? s_zero) then
            let realPart := trace / s_two in
            let imagPart := s_sqrt (- disc) / s_two in
            Some (mkLoop M (m - 2) (ls_iter st)
                    (ls_eigenvalues st
                       ++ [mkRoot realPart imagPart; mkRoot realPart (- imagPart)]))
          else
            let shift := wilkinsonShift M m in
            innerLoop fuel' (mkLoop (qrStep M m shift) m (S (ls_iter st))
                               (ls_eigenvalues st))
    else Some st
  end.

(** How one run of the inner loop can end: after [iter <= maxIter] QR steps,
    either by a [break] that removed rows and pushed as many eigenvalues, or
    at the cap with nothing removed. *)
Definition round_ok (st st' : LoopState) : Prop :=
  (ls_iter st <= ls_iter st' <= maxIter)%nat /\
  ls_H st' = qrIterate (ls_iter st' - ls_iter st) (ls_H st) (ls_m st) /\
  (((ls_iter st' < maxIter)%nat /\ (ls_m st' < ls_m st)%nat /\
    exists new, ls_eigenvalues st' = ls_eigenvalues st ++ new /\
                (length new + ls_m st' = ls_m st)%nat)
   \/
   (ls_iter st' = maxIter /\ ls_m st' = ls_m st /\
    ls_eigenvalues st' = ls_eigenvalues st)).

(** [for (let i = 0; i < m; i++) eigenvalues.push({ real: H[i][i], imag: 0 })] *)
Definition diagonalRoots (M : Matrix) (m : nat) : list (Root F) :=
  map (fun i => mkRoot (mget M i i) s_zero) (seq 0 m).

(** The outer loop [while (m > 0) { ... }]. *)
Fixpoint outerLoop (fuel innerFuel : nat) (M : Matrix) (m : nat)
    (eigenvalues : list (Root F)) : option (list (Root F)) :=
  match fuel with
  | O => None
  | S fuel' =>
    if (0 <? m)%nat then
      match innerLoop innerFuel (mkLoop M m 0 eigenvalues) with
      | None => None
      | Some st =>
        if (maxIter <=? ls_iter st)%nat then
          outerLoop fuel' innerFuel (ls_H st) 0
            (ls_eigenvalues st ++ diagonalRoots (ls_H st) (ls_m st))
        else
          outerLoop fuel' innerFuel (ls_H st) (ls_m st) (ls_eigenvalues st)
      end
    else Some eigenvalues
  end.

(** [computeEigenvalues(matrix, n)] with fuel for its two [while] loops. *)
Definition computeEigenvalues_fuel (fuel innerFuel : nat) (matrix : Matrix) (n : nat)
  : option (list (Root F)) :=
  let M := map (fun row => row) matrix in
  outerLoop fuel innerFuel M n [].

(** The companion matrix built by [findPolynomialRoots]: row [i] is zero
    except for a 1 at column [i+1] (when [i < n-1]) and [-coeffs[n-i]] at
    column 0, written last. *)
Definition companionRow (coeffs : list F) (n i : nat) : list F :=
  let row := repeat s_zero n in
  let row := if (i <? n - 1)%nat then upd row (i + 1) s_one else row in
  upd row 0 (- nth (n - i) coeffs s_zero).

Definition companion (coeffs : list F) (n : nat) : Matrix :=
  map (companionRow coeffs n) (seq 0 n).

(** [findPolynomialRoots(coeffs)] with fuel. *)
Definition findPolynomialRoots_fuel (fuel innerFuel : nat) (coeffs : list F)
  : option (list (Root F)) :=
  let n := (length coeffs - 1)%nat in
  if (n <=? 0)%nat then Some []
  else computeEigenvalues_fuel fuel innerFuel (companion coeffs n) n.

(** Fuel that always suffices (see the termination theorems): the outer loop
    removes at least one row per round, the inner loop tests its condition at
    most [maxIter + 1] times. *)
Definition computeEigenvalues (matrix : Matrix) (n : nat) : list (Root F) :=
  match computeEigenvalues_fuel (S n) (S maxIter) matrix n with
  | Some evs => evs
  | None => []
  end.

Definition findPolynomialRoots (coeffs : list F) : list (Root F) :=
  let n := (length coeffs - 1)%nat in
  if (n <=? 0)%nat then []
  else computeEigenvalues (companion coeffs n) n.

End Solver.
End QR.

(** ** Real-number models of the [Math] functions *)

Module JSMath.
Local Open Scope R_scope.

Definition Rltb (x y : R) : bool := if Rlt_dec x y then true else false.
Definition Rgeb (x y : R) : bool := if Rge_dec x y then true else false.

(** [Math.floor] and [Math.ceil], as integers. *)
Definition Math_floor (x : R) : Z := Int_part x.
Definition Math_ceil (x : R) : Z := (- Int_part (- x))%Z.

(** [Math.atan2(y, x)] *)
Definition Math_atan2 (y x : R) : R :=
  if Rlt_dec 0 x then atan (y / x)
  else if Rlt_dec x 0 then
    (if Rle_dec 0 y then atan (y / x) + PI else atan (y / x) - PI)
  else if Rlt_dec 0 y then PI / 2
  else if Rlt_dec y 0 then - (PI / 2)
  else 0.

(** [Math.pow(x, y)] for a base [x >= 0] and an exponent [y > 0], the only
    use the analyzer makes of it: [Math.pow(0, y)] is 0. *)
Definition Math_pow (x y : R) : R :=
  if Req_dec_T x 0 then 0 else Rpower x y.

(** [Math.max(...l, last)] *)
Definition Math_max_list (l : list R) (last : R) : R := fold_right Rmax last l.

(** The arithmetic of JavaScript numbers, read as reals. *)
#[export] Instance R_Scalar : Scalar R := {|
  s_zero := 0;
  s_one := 1;
  s_two := 2;
  s_four := 4;
  s_eps10 := 1e-10;
  s_eps15 := 1e-15;
  s_add := Rplus;
  s_sub := Rminus;
  s_mul := Rmult;
  s_div := Rdiv;
  s_neg := Ropp;
  s_sqrt := sqrt;
  s_abs := Rabs;
  s_ltb := Rltb;
  s_geb := Rgeb
|}.

(** The arithmetic of NaN alone: every operation yields NaN and every
    comparison is false. *)
#[export] Instance NaN_Scalar : Scalar unit := {|
  s_zero := tt;
  s_one := tt;
  s_two := tt;
  s_four := tt;
  s_eps10 := tt;
  s_eps15 := tt;
  s_add := fun _ _ => tt;
  s_sub := fun _ _ => tt;
  s_mul := fun _ _ => tt;
  s_div := fun _ _ => tt;
  s_neg := fun _ => tt;
  s_sqrt := fun _ => tt;
  s_abs := fun _ => tt;
  s_ltb := fun _ _ => false;
  s_geb := fun _ _ => false
|}.

End JSMath.

(** ** Trajectories, the output of both extraction paths *)

Module Traj.

(** A trajectory point [{ t, freq, amp }]. *)
Record Point : Type := mkPoint { t : R; freq : R; amp : R }.

(** The three tracks, [{ F1: ..., F2: ..., F3: ... }]. *)
Record Trajectories : Type := mkTraj {
  F1 : list Point;
  F2 : list Point;
  F3 : list Point
}.

(** A point of a track of tier weight [w]: the frequency is not negative
    and the amplitude lies in [0, w]. *)
Definition pointInRange (w : R) (p : Point) : Prop :=
  (0 <= freq p /\ 0 <= amp p <= w)%R.

(** Three tracks that form a trajectory: equal lengths, the same strictly
    increasing times, frequencies that are not negative, amplitudes in
    [0, 1]. *)
Definition wellFormed (a b c : list Point) : Prop :=
  length a = length b /\ length b = length c /\
  map t a = map t b /\ map t b = map t c /\
  StronglySorted Rlt (map t a) /\
  Forall (pointInRange 1) (a ++ b ++ c).

End Traj.

(** ** The LPC analyzer (class [LPCAnalyzer]) *)

Module LPC.
Import JSMath.
Export Traj.
Local Open Scope R_scope.

(** The fields of an [LPCAnalyzer]. *)
Record Analyzer : Type := mkAnalyzer {
  sampleRate : R;
  hopSize : nat;
  windowSize : nat;
  lpcOrder : nat;
  window : list R
}.

(** [createHannWindow(size)] *)
Definition createHannWindow (size : nat) : list R :=
  map (fun i => 0.5 * (1 - cos ((2 * PI * INR i) / (INR size - 1)))) (seq 0 size).

(** [new LPCAnalyzer(sampleRate, hopSize, lpcOrder)] *)
Definition new_LPCAnalyzer (sampleRate : R) (hopSize lpcOrder : nat) : Analyzer :=
  let windowSize := (hopSize * 2)%nat in
  mkAnalyzer sampleRate hopSize windowSize lpcOrder (createHannWindow windowSize).

(** The analyzer that the player creates, [new LPCAnalyzer(8000, 256, 12)]. *)
Definition playerAnalyzer : Analyzer := new_LPCAnalyzer 8000 256 12.

(** [resample(audio, fromRate, toRate)].  [new Float32Array(outputLength)]
    throws a RangeError when the length is negative or infinite; the length
    is infinite when a non-empty buffer is divided by a zero ratio. *)
Definition resample (audio : list R) (fromRate toRate : R) : outcome (list R) :=
  if Req_dec_T fromRate toRate then Returned audio
  else
    let ratio := fromRate / toRate in
    if Req_dec_T ratio 0 then
      match audio with
      | [] => Returned []
      | _ :: _ => Thrown RangeError_arrayLength
      end
    else
      let outputLength := Math_floor (INR (length audio) / ratio) in
      if (outputLength <? 0)%Z then Thrown RangeError_arrayLength
      else
        Returned
          (map (fun i =>
                  let srcIdx := INR i * ratio in
                  let srcFloor := Math_floor srcIdx in
                  let srcCeil := Z.min (srcFloor + 1) (Z.of_nat (length audio) - 1) in
                  let t := srcIdx - IZR srcFloor in
                  nth (Z.to_nat srcFloor) audio 0 * (1 - t)
                  + nth (Z.to_nat srcCeil) audio 0 * t)
               (seq 0 (Z.to_nat outputLength))).

(** [preEmphasis(audio, coeff)] *)
Definition preEmphasis (audio : list R) (coeff : R) : list R :=
  map (fun i =>
         match i with
         | O => nth 0 audio 0
         | S i' => nth i audio 0 - coeff * nth i' audio 0
         end)
      (seq 0 (length audio)).

(** [a.slice(start, end)] *)
Definition slice (a : list R) (start stop : nat) : list R :=
  firstn (stop - start) (skipn start a).

(** [applyWindow(frame)] *)
Definition applyWindow (an : Analyzer) (frame : list R) : list R :=
  let len := Nat.min (length frame) (length (window an)) in
  map (fun i => if (i <? len)%nat then nth i frame 0 * nth i (window an) 0 else 0)
      (seq 0 (length frame)).

(** [autocorrelate(frame, maxLag)] *)
Definition autocorrelate (frame : list R) (maxLag : nat) : list R :=
  map (fun lag =>
         fold_left (fun sum i => sum + nth i frame 0 * nth (i + lag) frame 0)
                   (seq 0 (length frame - lag)) 0)
      (seq 0 maxLag).

(** The result [{ coeffs, gain }] of [levinsonDurbin]. *)
Record LPCModel : Type := mkModel { coeffs : list R; gain : R }.

(** The variables [a], [aTemp] and [e] of [levinsonDurbin]. *)
Record LDState : Type := mkLD { ld_a : list R; ld_aTemp : list R; ld_e : R }.

(** The reflection coefficient [lambda] of order [i]. *)
Definition reflection (r a : list R) (i : nat) (e : R) : R :=
  fold_left (fun lambda j => lambda - nth j a 0 * nth (i - j) r 0)
            (seq 1 (i - 1)) (nth i r 0)
  / e.

(** The body of the order loop, up to the update of [e]. *)
Definition ld_step (r : list R) (i : nat) (st : LDState) : LDState :=
  let a := ld_a st in
  let lambda := reflection r a i (ld_e st) in
  let aTemp := upd (ld_aTemp st) i lambda in
  let aTemp :=
    fold_left (fun aT j => upd aT j (nth j a 0 - lambda * nth (i - j) a 0))
              (seq 1 (i - 1)) aTemp in
  let a := fold_left (fun a j => upd a j (nth j aTemp 0)) (seq 1 i) a in
  mkLD a aTemp (ld_e st * (1 - lambda * lambda)).

(** [for (let i = ...; i <= p; i++) { ...; if (e <= 0) break; }] with [count]
    orders left to run. *)
Fixpoint ld_loop (r : list R) (count i : nat) (st : LDState) : LDState :=
  match count with
  | O => st
  | S count' =>
    let st' := ld_step r i st in
    if Rle_dec (ld_e st') 0 then st' else ld_loop r count' (S i) st'
  end.

(** The state after [k] orders of the recursion run without halting, from
    the state [st]: orders [i], [i+1], ..., [i+k-1]. *)
Definition ld_orders (r : list R) (i k : nat) (st : LDState) : LDState :=
  fold_left (fun st i => ld_step r i st) (seq i k) st.

(** [levinsonDurbin(r)] for an analyzer of order [p]. *)
Definition levinsonDurbin (p : nat) (r : list R) : LPCModel :=
  let a := upd (repeat 0 (p + 1)) 0 1 in
  if Rlt_dec (nth 0 r 0) 1e-10 then mkModel a 0
  else
    let st := ld_loop r p 1 (mkLD a (repeat 0 (p + 1)) (nth 0 r 0)) in
    mkModel (ld_a st) (sqrt (Rmax (ld_e st) 0)).

(** A formant candidate [{ freq, magnitude, bandwidth }]. *)
Record Formant : Type := mkFormant {
  f_freq : R;
  f_magnitude : R;
  f_bandwidth : R
}.

(** The candidate computed from one root. *)
Definition rootFormant (sampleRate gain : R) (root : Root R) : Formant :=
  let freq := (Math_atan2 (imag root) (real root) * sampleRate) / (2 * PI) in
  let rootMag := sqrt (real root * real root + imag root * imag root) in
  let magnitude := gain / Rmax (1 - rootMag) 0.01 in
  let bandwidth := (- ln rootMag * sampleRate) / PI in
  mkFormant freq magnitude bandwidth.

(** The loop over the roots: [continue] on [root.imag <= 0.001], then the
    range test before [formants.push]. *)
Fixpoint collectFormants (sampleRate gain : R) (roots : list (Root R))
  : list Formant :=
  match roots with
  | [] => []
  | root :: rest =>
    if Rle_dec (imag root) 0.001 then collectFormants sampleRate gain rest
    else
      let c := rootFormant sampleRate gain root in
      if Rltb 90 (f_freq c) && Rltb (f_freq c) 4000
         && Rltb 0 (f_bandwidth c) && Rltb (f_bandwidth c) 600
      then c :: collectFormants sampleRate gain rest
      else collectFormants sampleRate gain rest
  end.

(** [formants.sort((a, b) => a.freq - b.freq)]: the sort is stable. *)
Fixpoint insertFormant (x : Formant) (l : list Formant) : list Formant :=
  match l with
  | [] => [x]
  | y :: l' =>
    if Rle_dec (f_freq x) (f_freq y) then x :: y :: l'
    else y :: insertFormant x l'
  end.

Definition sortFormants (l : list Formant) : list Formant :=
  fold_right insertFormant [] l.

(** The order of the sort. *)
Definition freq_le (a b : Formant) : Prop := f_freq a <= f_freq b.

(** The result [{ frequencies, magnitudes }] of [coeffsToFormants]. *)
Record FrameFormants : Type := mkFrame {
  frequencies : list R;
  magnitudes : list R
}.

(** The selector as the specification words it: the frequency, pole
    magnitude, bandwidth and magnitude derived from a root, and the roots
    that are kept. *)
Definition spec_frequency (sampleRate : R) (root : Root R) : R :=
  Math_atan2 (imag root) (real root) * sampleRate / (2 * PI).

Definition spec_rho (root : Root R) : R :=
  sqrt (real root * real root + imag root * imag root).

Definition spec_bandwidth (sampleRate : R) (root : Root R) : R :=
  - ln (spec_rho root) * sampleRate / PI.

Definition spec_magnitude (gain : R) (root : Root R) : R :=
  gain / Rmax (1 - spec_rho root) 0.01.

Definition spec_keeps (sampleRate : R) (root : Root R) : Prop :=
  0.001 < imag root /\
  90 < spec_frequency sampleRate root < 4000 /\
  0 < spec_bandwidth sampleRate root < 600.

Definition spec_keepsb (sampleRate : R) (root : Root R) : bool :=
  Rltb 0.001 (imag root)
  && Rltb 90 (spec_frequency sampleRate root)
  && Rltb (spec_frequency sampleRate root) 4000
  && Rltb 0 (spec_bandwidth sampleRate root)
  && Rltb (spec_bandwidth sampleRate root) 600.

(** [coeffsToFormants(coeffs, gain)] *)
Definition coeffsToFormants (sampleRate : R) (coeffs : list R) (gain : R)
  : FrameFormants :=
  let roots := QR.findPolynomialRoots coeffs in
  let formants := sortFormants (collectFormants sampleRate gain roots) in
  mkFrame (map f_freq formants) (map f_magnitude formants).

(** One frame of the hop loop, up to [coeffsToFormants]; [analyze] has set
    [this.sampleRate] to the target rate by then. *)
Definition targetRate : R := 8000.

Definition frameFormants (an : Analyzer) (paddedAudio : list R) (hop : nat)
  : FrameFormants :=
  let startIdx := (hop * hopSize an)%nat in
  let frame := slice paddedAudio startIdx (startIdx + windowSize an) in
  let windowed := applyWindow an frame in
  let autocorr := autocorrelate windowed (lpcOrder an + 1) in
  let model := levinsonDurbin (lpcOrder an) autocorr in
  coeffsToFormants targetRate (coeffs model) (gain model).

(** The state carried by the hop loop. *)
Record TrackState : Type := mkTrack {
  prevFreqs : list R;
  prevMags : list R;
  trajectories : Trajectories
}.

Definition initialTrack : TrackState :=
  mkTrack [500; 1500; 2500] [0; 0; 0] (mkTraj [] [] []).

Definition smoothing : R := 0.3.

(** [magnitudes[i] || 0] *)
Definition orZero (o : option R) : R :=
  match o with
  | Some m => m
  | None => 0
  end.

(** The body of [for (let i = 0; i < 3; i++)] on the two arrays. *)
Definition smoothSlot (fr : FrameFormants) (st : list R * list R) (i : nat)
  : list R * list R :=
  let '(pf, pm) := st in
  match nth_error (frequencies fr) i with
  | Some f =>
    if Rlt_dec 0 f then
      (upd pf i (nth i pf 0 * (1 - smoothing) + f * smoothing),
       upd pm i (nth i pm 0 * (1 - smoothing)
                 + orZero (nth_error (magnitudes fr) i) * smoothing))
    else (pf, upd pm i (nth i pm 0 * 0.8))
  | None => (pf, upd pm i (nth i pm 0 * 0.8))
  end.

(** What the loop body does to slot [i], holding [a] and [m]. *)
Definition smoothedSlot (fr : FrameFormants) (i : nat) (a m : R) : R * R :=
  match nth_error (frequencies fr) i with
  | Some f =>
    if Rlt_dec 0 f then
      (a * (1 - smoothing) + f * smoothing,
       m * (1 - smoothing) + orZero (nth_error (magnitudes fr) i) * smoothing)
    else (a, m * 0.8)
  | None => (a, m * 0.8)
  end.

(** Tier weights of the three tracks. *)
Definition weightF1 : R := 1.0.
Definition weightF2 : R := 0.7.
Definition weightF3 : R := 0.4.

(** The rest of the hop loop body, from the candidates of the frame on. *)
Definition trackFrame (an : Analyzer) (st : TrackState) (hop : nat)
    (fr : FrameFormants) : TrackState :=
  let time := INR (hop * hopSize an) / targetRate in
  let '(pf, pm) := fold_left (smoothSlot fr) [0; 1; 2]%nat (prevFreqs st, prevMags st) in
  let maxMag := Math_max_list pm 0.001 in
  let T := trajectories st in
  mkTrack pf pm
    (mkTraj
       (F1 T ++ [mkPoint time (nth 0 pf 0) ((nth 0 pm 0 / maxMag) * weightF1)])
       (F2 T ++ [mkPoint time (nth 1 pf 0) ((nth 1 pm 0 / maxMag) * weightF2)])
       (F3 T ++ [mkPoint time (nth 2 pf 0) ((nth 2 pm 0 / maxMag) * weightF3)])).

(** The hop loop over the candidates of the successive frames. *)
Fixpoint trackLoop (an : Analyzer) (hop : nat) (frames : list FrameFormants)
    (st : TrackState) : TrackState :=
  match frames with
  | [] => st
  | fr :: rest => trackLoop an (S hop) rest (trackFrame an st hop fr)
  end.

(** The time of the point pushed at hop [hop]. *)
Definition hopTime (an : Analyzer) (hop : nat) : R :=
  INR (hop * hopSize an) / targetRate.

(** Invariant of the hop loop after [n] hops: the two arrays have three
    slots, with positive frequencies and magnitudes that are not negative;
    each track has one point per hop, at the hop times, within the range of
    its tier. *)
Definition loopInv (an : Analyzer) (n : nat) (st : TrackState) : Prop :=
  (exists a0 a1 a2 m0 m1 m2,
      prevFreqs st = [a0; a1; a2] /\ prevMags st = [m0; m1; m2] /\
      0 < a0 /\ 0 < a1 /\ 0 < a2 /\ 0 <= m0 /\ 0 <= m1 /\ 0 <= m2) /\
  map t (F1 (trajectories st)) = map (hopTime an) (seq 0 n) /\
  map t (F2 (trajectories st)) = map (hopTime an) (seq 0 n) /\
  map t (F3 (trajectories st)) = map (hopTime an) (seq 0 n) /\
  Forall (pointInRange weightF1) (F1 (trajectories st)) /\
  Forall (pointInRange weightF2) (F2 (trajectories st)) /\
  Forall (pointInRange weightF3) (F3 (trajectories st)).

(** Trajectories whose points are within the ranges of their tiers. *)
Definition tracksInRange (T : Trajectories) : Prop :=
  Forall (pointInRange weightF1) (F1 T) /\
  Forall (pointInRange weightF2) (F2 T) /\
  Forall (pointInRange weightF3) (F3 T).

(** Candidates whose magnitudes are not negative, as [coeffsToFormants]
    returns them from a gain that is not negative. *)
Definition validFrames (frames : list FrameFormants) : Prop :=
  Forall (fun fr => Forall (Rle 0) (magnitudes fr)) frames.

(** The first loop of [normalizeAmplitudes]: its inner loop over the points
    of one track, from the maximum [g] so far, and the loop over the three
    tracks. *)
Definition trackMax (g : R) (track : list Point) : R :=
  fold_left (fun g point => Rmax g (amp point)) track g.

Definition globalMaxOf (T : Trajectories) : R :=
  fold_left trackMax [F1 T; F2 T; F3 T] 0.

(** All the points of a trajectory, in the order the loops visit them. *)
Definition allPoints (T : Trajectories) : list Point := F1 T ++ F2 T ++ F3 T.

(** The update of one point in the second loop. *)
Definition normalizePoint (globalMax weight : R) (point : Point) : Point :=
  let a := amp point / globalMax in
  let a := Math_pow a 0.6 in
  mkPoint (t point) (freq point) (a * weight).

(** [normalizeAmplitudes(trajectories)]; the code updates the points in
    place, and no point belongs to two tracks. *)
Definition normalizeAmplitudes (T : Trajectories) : Trajectories :=
  let globalMax := globalMaxOf T in
  if Rlt_dec 0 globalMax then
    mkTraj (map (normalizePoint globalMax weightF1) (F1 T))
           (map (normalizePoint globalMax weightF2) (F2 T))
           (map (normalizePoint globalMax weightF3) (F3 T))
  else T.

(** The trajectories before and after the global pass, from the candidates
    of the frames. *)
Definition rawTracks (an : Analyzer) (frames : list FrameFormants) : Trajectories :=
  trajectories (trackLoop an 0 frames initialTrack).

Definition analyzeFrames (an : Analyzer) (frames : list FrameFormants) : Trajectories :=
  normalizeAmplitudes (rawTracks an frames).

(** Two pairs of conjugate poles inside the unit circle, [0.9 e^(+-i pi/4)]
    at 1000 Hz and [0.99 e^(+-i pi/2)] at 2000 Hz: the second resonance is
    the sharper one. *)
Definition sharpPoles : list (Root R) :=
  [mkRoot (sqrt 0.405) (sqrt 0.405); mkRoot (sqrt 0.405) (- sqrt 0.405);
   mkRoot 0 0.99; mkRoot 0 (- 0.99)].

(** One frame with the two candidates that the selector makes of these
    poles for a gain of 0.1. *)
Definition sharpSecondFormant : list FrameFormants :=
  [mkFrame [1000; 2000] [1; 10]].

(** The audio of [analyze] after resampling, pre-emphasis and padding, and the
    candidates of its [numHops] frames.  The candidates of a frame do not
    depend on the smoothing state, so the hop loop is the loop [trackLoop]
    over them. *)
Definition paddedAudioOf (an : Analyzer) (audio : list R) : list R :=
  let padSize := ((windowSize an - hopSize an) / 2)%nat in
  repeat 0 padSize ++ audio ++ repeat 0 padSize.

Definition numHopsOf (an : Analyzer) (audio : list R) : nat :=
  (length audio / hopSize an)%nat.

Definition framesOf (an : Analyzer) (audio : list R) : list FrameFormants :=
  map (frameFormants an (paddedAudioOf an audio)) (seq 0 (numHopsOf an audio)).

(** [analyze(audioBuffer, inputSampleRate)], for an analyzer whose hop size
    is positive. *)
Definition analyze (an : Analyzer) (audioBuffer : list R) (inputSampleRate : R)
  : outcome Trajectories :=
  audio <- resample audioBuffer inputSampleRate targetRate ;;
  let audio := preEmphasis audio 0.9 in
  Returned (analyzeFrames an (framesOf an audio)).

End LPC.

(** ** JavaScript objects used as lookup tables *)

Module JSObject.
Local Open Scope string_scope.

(** [obj[key]] on an object literal: an own property, a member inherited
    from [Object.prototype], or [undefined]. *)
Inductive Property (A : Type) : Type :=
| Own (v : A)
| Inherited
| Undefined.
Arguments Own {A} v.
Arguments Inherited {A}.
Arguments Undefined {A}.

(** The names that every object literal inherits from [Object.prototype].
    Each is bound to a function, and [__proto__] to the prototype object:
    truthy values that are not iterable. *)
Definition Object_prototype_names : list string :=
  ["constructor"; "__proto__"; "hasOwnProperty"; "isPrototypeOf";
   "propertyIsEnumerable"; "toLocaleString"; "toString"; "valueOf";
   "__defineGetter__"; "__defineSetter__"; "__lookupGetter__";
   "__lookupSetter__"].

Fixpoint ownProperty {A : Type} (obj : list (string * A)) (key : string) : option A :=
  match obj with
  | [] => None
  | (k, v) :: rest => if String.eqb k key then Some v else ownProperty rest key
  end.

Definition getProperty {A : Type} (obj : list (string * A)) (key : string)
  : Property A :=
  match ownProperty obj key with
  | Some v => Own v
  | None =>
    if existsb (String.eqb key) Object_prototype_names then Inherited
    else Undefined
  end.

End JSObject.

(** ** The phoneme-table fallback (class [PhonemeMapper]) *)

Module PhonemeMapper.
Import JSMath JSObject.
Local Open Scope R_scope.

(** The phoneme codes, the keys of [PHONEME_FORMANTS]. *)
Inductive Phoneme : Type :=
| P_IY
| P_IH
| P_EH
| P_AE
| P_AA
| P_AO
| P_UH
| P_UW
| P_AH
| P_ER
| P_EY
| P_AY
| P_OY
| P_AW
| P_OW
| P_W
| P_Y
| P_R
| P_L
| P_M
| P_N
| P_NG
| P_V
| P_DH
| P_Z
| P_ZH
| P_B
| P_D
| P_G
| P_JH
| P_P
| P_T
| P_K
| P_F
| P_TH
| P_S
| P_SH
| P_CH
| P_HH
| P_SIL.

(** [[F1, F2, F3]] in Hz. *)
Definition PHONEME_FORMANTS (p : Phoneme) : R * R * R :=
  match p with
  | P_IY => (270, 2290, 3010)
  | P_IH => (390, 1990, 2550)
  | P_EH => (530, 1840, 2480)
  | P_AE => (660, 1720, 2410)
  | P_AA => (730, 1090, 2440)
  | P_AO => (570, 840, 2410)
  | P_UH => (440, 1020, 2240)
  | P_UW => (300, 870, 2240)
  | P_AH => (640, 1190, 2390)
  | P_ER => (490, 1350, 1690)
  | P_EY => (450, 2000, 2600)
  | P_AY => (750, 1200, 2600)
  | P_OY => (550, 900, 2500)
  | P_AW => (750, 1200, 2500)
  | P_OW => (500, 900, 2500)
  | P_W => (350, 700, 2400)
  | P_Y => (300, 2200, 3000)
  | P_R => (420, 1300, 1600)
  | P_L => (400, 1100, 2600)
  | P_M => (300, 1200, 2500)
  | P_N => (300, 1700, 2500)
  | P_NG => (350, 2000, 2700)
  | P_V => (300, 1300, 2400)
  | P_DH => (350, 1600, 2600)
  | P_Z => (350, 1800, 2600)
  | P_ZH => (350, 2000, 2600)
  | P_B => (350, 1100, 2400)
  | P_D => (350, 1700, 2600)
  | P_G => (350, 2000, 2600)
  | P_JH => (350, 2200, 2800)
  | P_P => (0, 0, 0)
  | P_T => (0, 0, 0)
  | P_K => (0, 0, 0)
  | P_F => (0, 0, 0)
  | P_TH => (0, 0, 0)
  | P_S => (0, 0, 0)
  | P_SH => (0, 0, 0)
  | P_CH => (0, 0, 0)
  | P_HH => (0, 0, 0)
  | P_SIL => (0, 0, 0)
  end.

(** F1 loudest, F3 quietest. *)
Definition FORMANT_AMPLITUDES_F1 : R := 1.0.
Definition FORMANT_AMPLITUDES_F2 : R := 0.7.
Definition FORMANT_AMPLITUDES_F3 : R := 0.4.

Definition LETTER_TO_PHONEME : list (string * Phoneme) :=
  [("a", P_AE);
   ("e", P_EH);
   ("i", P_IH);
   ("o", P_AA);
   ("u", P_AH);
   ("b", P_B);
   ("c", P_K);
   ("d", P_D);
   ("f", P_F);
   ("g", P_G);
   ("h", P_HH);
   ("j", P_JH);
   ("k", P_K);
   ("l", P_L);
   ("m", P_M);
   ("n", P_N);
   ("p", P_P);
   ("q", P_K);
   ("r", P_R);
   ("s", P_S);
   ("t", P_T);
   ("v", P_V);
   ("w", P_W);
   ("x", P_K);
   ("y", P_Y);
   ("z", P_Z)]%string.

Definition DIGRAPH_TO_PHONEME : list (string * Phoneme) :=
  [("th", P_TH);
   ("sh", P_SH);
   ("ch", P_CH);
   ("ng", P_NG);
   ("wh", P_W);
   ("ph", P_F);
   ("ck", P_K);
   ("ee", P_IY);
   ("ea", P_IY);
   ("oo", P_UW);
   ("ou", P_AW);
   ("ow", P_OW);
   ("oi", P_OY);
   ("oy", P_OY);
   ("ai", P_EY);
   ("ay", P_EY);
   ("ie", P_IY);
   ("igh", P_AY);
   ("au", P_AO);
   ("aw", P_AO);
   ("er", P_ER);
   ("ir", P_ER);
   ("ur", P_ER);
   ("or", P_AO);
   ("ar", P_AA)]%string.

Definition WORD_PRONUNCIATIONS : list (string * list Phoneme) :=
  [("the"%string, [P_DH; P_AH]);
   ("a"%string, [P_AH]);
   ("an"%string, [P_AE; P_N]);
   ("is"%string, [P_IH; P_Z]);
   ("are"%string, [P_AA; P_R]);
   ("was"%string, [P_W; P_AH; P_Z]);
   ("were"%string, [P_W; P_ER]);
   ("where"%string, [P_W; P_EH; P_R]);
   ("what"%string, [P_W; P_AH; P_T]);
   ("when"%string, [P_W; P_EH; P_N]);
   ("why"%string, [P_W; P_AY]);
   ("how"%string, [P_HH; P_AW]);
   ("you"%string, [P_Y; P_UW]);
   ("your"%string, [P_Y; P_AO; P_R]);
   ("year"%string, [P_Y; P_IH; P_R]);
   ("ago"%string, [P_AH; P_G; P_OW]);
   ("to"%string, [P_T; P_UW]);
   ("do"%string, [P_D; P_UW]);
   ("go"%string, [P_G; P_OW]);
   ("no"%string, [P_N; P_OW]);
   ("so"%string, [P_S; P_OW]);
   ("of"%string, [P_AH; P_V]);
   ("for"%string, [P_F; P_AO; P_R]);
   ("with"%string, [P_W; P_IH; P_TH]);
   ("this"%string, [P_DH; P_IH; P_S]);
   ("that"%string, [P_DH; P_AE; P_T]);
   ("have"%string, [P_HH; P_AE; P_V]);
   ("has"%string, [P_HH; P_AE; P_Z]);
   ("had"%string, [P_HH; P_AE; P_D]);
   ("be"%string, [P_B; P_IY]);
   ("been"%string, [P_B; P_IH; P_N]);
   ("will"%string, [P_W; P_IH; P_L]);
   ("would"%string, [P_W; P_UH; P_D]);
   ("could"%string, [P_K; P_UH; P_D]);
   ("should"%string, [P_SH; P_UH; P_D]);
   ("can"%string, [P_K; P_AE; P_N]);
   ("from"%string, [P_F; P_R; P_AH; P_M]);
   ("they"%string, [P_DH; P_EY]);
   ("their"%string, [P_DH; P_EH; P_R]);
   ("there"%string, [P_DH; P_EH; P_R]);
   ("here"%string, [P_HH; P_IH; P_R]);
   ("hello"%string, [P_HH; P_AH; P_L; P_OW]);
   ("world"%string, [P_W; P_ER; P_L; P_D]);
   ("speech"%string, [P_S; P_P; P_IY; P_CH]);
   ("sound"%string, [P_S; P_AW; P_N; P_D]);
   ("hear"%string, [P_HH; P_IH; P_R]);
   ("listen"%string, [P_L; P_IH; P_S; P_AH; P_N]);
   ("voice"%string, [P_V; P_OY; P_S]);
   ("say"%string, [P_S; P_EY]);
   ("said"%string, [P_S; P_EH; P_D]);
   ("word"%string, [P_W; P_ER; P_D]);
   ("words"%string, [P_W; P_ER; P_D; P_Z]);
   ("one"%string, [P_W; P_AH; P_N]);
   ("two"%string, [P_T; P_UW]);
   ("three"%string, [P_TH; P_R; P_IY]);
   ("i"%string, [P_AY]);
   ("my"%string, [P_M; P_AY]);
   ("me"%string, [P_M; P_IY]);
   ("we"%string, [P_W; P_IY]);
   ("he"%string, [P_HH; P_IY]);
   ("she"%string, [P_SH; P_IY]);
   ("it"%string, [P_IH; P_T]);
   ("not"%string, [P_N; P_AA; P_T]);
   ("don't"%string, [P_D; P_OW; P_N; P_T]);
   ("know"%string, [P_N; P_OW]);
   ("think"%string, [P_TH; P_IH; P_NG; P_K]);
   ("like"%string, [P_L; P_AY; P_K]);
   ("just"%string, [P_JH; P_AH; P_S; P_T]);
   ("time"%string, [P_T; P_AY; P_M]);
   ("good"%string, [P_G; P_UH; P_D]);
   ("new"%string, [P_N; P_UW]);
   ("first"%string, [P_F; P_ER; P_S; P_T]);
   ("last"%string, [P_L; P_AE; P_S; P_T]);
   ("long"%string, [P_L; P_AO; P_NG]);
   ("great"%string, [P_G; P_R; P_EY; P_T]);
   ("little"%string, [P_L; P_IH; P_T; P_AH; P_L]);
   ("own"%string, [P_OW; P_N]);
   ("other"%string, [P_AH; P_DH; P_ER]);
   ("old"%string, [P_OW; P_L; P_D]);
   ("right"%string, [P_R; P_AY; P_T]);
   ("big"%string, [P_B; P_IH; P_G]);
   ("high"%string, [P_HH; P_AY]);
   ("small"%string, [P_S; P_M; P_AO; P_L]);
   ("next"%string, [P_N; P_EH; P_K; P_S; P_T]);
   ("early"%string, [P_ER; P_L; P_IY]);
   ("young"%string, [P_Y; P_AH; P_NG]);
   ("few"%string, [P_F; P_Y; P_UW]);
   ("bad"%string, [P_B; P_AE; P_D]);
   ("same"%string, [P_S; P_EY; P_M]);
   ("quick"%string, [P_K; P_W; P_IH; P_K]);
   ("brown"%string, [P_B; P_R; P_AW; P_N]);
   ("fox"%string, [P_F; P_AA; P_K; P_S])].

(** [{ phoneme, duration }] *)
Record PhonemeUnit : Type := mkUnit { phoneme : Phoneme; duration : R }.

(** [getPhonemeDuration(phoneme)] *)
Definition getPhonemeDuration (p : Phoneme) : R :=
  match p with
  | P_IY | P_IH | P_EH | P_AE | P_AA | P_AO | P_UH | P_UW | P_AH | P_ER
  | P_EY | P_AY | P_OY | P_AW | P_OW => 0.10
  | P_M | P_N | P_NG | P_L | P_R | P_W | P_Y => 0.07
  | P_V | P_DH | P_Z | P_ZH | P_B | P_D | P_G | P_JH => 0.05
  | _ => 0.04
  end.

Definition unitOf (p : Phoneme) : PhonemeUnit := mkUnit p (getPhonemeDuration p).

(** [LETTER_TO_PHONEME[c]] and [DIGRAPH_TO_PHONEME[s]]: the keys looked up
    have one, two or three characters, and [Object.prototype] has no member
    with so short a name. *)
Definition letterPhoneme (c : ascii) : option Phoneme :=
  ownProperty LETTER_TO_PHONEME (String c EmptyString).

Definition digraphPhoneme (s : string) : option Phoneme :=
  ownProperty DIGRAPH_TO_PHONEME s.

(** [wordToPhonemes(word)], on the suffix [word.substring(i)] left to read:
    a trigraph, else a digraph, else a single letter. *)
Fixpoint wordToPhonemes (word : string) : list PhonemeUnit :=
  match word with
  | EmptyString => []
  | String c1 rest1 =>
    let single :=
      match letterPhoneme c1 with
      | Some p => unitOf p :: wordToPhonemes rest1
      | None => wordToPhonemes rest1
      end in
    let digraph :=
      match rest1 with
      | String c2 rest2 =>
        match digraphPhoneme (String c1 (String c2 EmptyString)) with
        | Some p => unitOf p :: wordToPhonemes rest2
        | None => single
        end
      | EmptyString => single
      end in
    match rest1 with
    | String c2 (String c3 rest3) =>
      match digraphPhoneme (String c1 (String c2 (String c3 EmptyString))) with
      | Some p => unitOf p :: wordToPhonemes rest3
      | None => digraph
      end
    | _ => digraph
    end
  end.

(** Character classes of the regular expressions.  A character of the text
    is a code unit below 256: the letters that [toLowerCase] changes are A-Z
    and the capital letters of Latin-1, [\w] is ASCII, and [\s] holds the
    ASCII white space and the no-break space. *)
Definition isUpper (c : ascii) : bool :=
  let n := nat_of_ascii c in
  (((65 <=? n) && (n <=? 90)) || ((192 <=? n) && (n <=? 214))
   || ((216 <=? n) && (n <=? 222)))%nat.

Definition isWordChar (c : ascii) : bool :=            (* \w *)
  let n := nat_of_ascii c in
  (((97 <=? n) && (n <=? 122)) || ((65 <=? n) && (n <=? 90))
   || ((48 <=? n) && (n <=? 57)) || (n =? 95))%nat.

Definition isSpace (c : ascii) : bool :=               (* \s *)
  let n := nat_of_ascii c in
  ((n =? 32) || ((9 <=? n) && (n <=? 13)) || (n =? 160))%nat.

(** [text.toLowerCase()] *)
Fixpoint toLowerCase (s : string) : string :=
  match s with
  | EmptyString => EmptyString
  | String c rest =>
    String (if isUpper c then ascii_of_nat (nat_of_ascii c + 32) else c)
           (toLowerCase rest)
  end.

(** [s.replace(/[^\w\s']/g, '')] *)
Fixpoint stripPunctuation (s : string) : string :=
  match s with
  | EmptyString => EmptyString
  | String c rest =>
    if isWordChar c || isSpace c || Ascii.eqb c "'"
    then String c (stripPunctuation rest)
    else stripPunctuation rest
  end.

(** [s.split(/\s+/)]: [word] is the piece being read and [inGap] tells that
    the previous character was white space. *)
Fixpoint splitSpaces (s : string) (word : string) (inGap : bool) : list string :=
  match s with
  | EmptyString => [word]
  | String c rest =>
    if isSpace c then
      if inGap then splitSpaces rest EmptyString true
      else word :: splitSpaces rest EmptyString true
    else splitSpaces rest (word ++ String c EmptyString)%string false
  end.

(** The loop of [textToPhonemes] over [words], from index [i] on. *)
Fixpoint phonemesOfWords (words : list string) : outcome (list PhonemeUnit) :=
  match words with
  | [] => Returned []
  | word :: rest =>
    if String.eqb word EmptyString then phonemesOfWords rest
    else
      ps <- match getProperty WORD_PRONUNCIATIONS word with
            | Own pron => Returned (map unitOf pron)
            | Inherited => Thrown TypeError_notIterable
            | Undefined => Returned (wordToPhonemes word)
            end ;;
      let pause :=
        match rest with
        | [] => []
        | _ :: _ => [mkUnit P_SIL 0.06]
        end in
      more <- phonemesOfWords rest ;;
      Returned (ps ++ pause ++ more)
  end.

(** [text.toLowerCase().replace(/[^\w\s']/g, '').split(/\s+/)] *)
Definition wordsOf (text : string) : list string :=
  splitSpaces (stripPunctuation (toLowerCase text)) EmptyString false.

(** [textToPhonemes(text)] *)
Definition textToPhonemes (text : string) : outcome (list PhonemeUnit) :=
  let words := wordsOf text in
  phonemesOfWords words.

(** [getFormants(phoneme)] *)
Record Formants : Type := mkFormants { f1 : R; f2 : R; f3 : R; voiced : bool }.

Definition getFormants (p : Phoneme) : Formants :=
  let '(a, b, c) := PHONEME_FORMANTS p in
  mkFormants a b c (Rltb 0 a).

(** A target [{ time, f1, f2, f3, amp }] of the interpolation. *)
Record Target : Type := mkTarget {
  time : R;
  tf1 : R;
  tf2 : R;
  tf3 : R;
  tamp : R
}.

(** [x || d] on numbers: [d] when [x] is 0. *)
Definition orDefault (x d : R) : R := if Req_dec_T x 0 then d else x.

(** The loop over the phonemes: [currentTime] and the targets pushed. *)
Fixpoint phonemeTargets (phonemes : list PhonemeUnit) (currentTime : R)
  : list Target * R :=
  match phonemes with
  | [] => ([], currentTime)
  | u :: rest =>
    let formants := getFormants (phoneme u) in
    let amp := if voiced formants then 1.0 else 0.0 in
    let centerTime := currentTime + duration u / 2 in
    let target := mkTarget centerTime (orDefault (f1 formants) 400)
                    (orDefault (f2 formants) 1500) (orDefault (f3 formants) 2500)
                    amp in
    let '(targets, endTime) := phonemeTargets rest (currentTime + duration u) in
    (target :: targets, endTime)
  end.

Definition silence (time : R) : Target := mkTarget time 400 1500 2500 0.

(** All the targets, and [currentTime] after the loop. *)
Definition allTargets (phonemes : list PhonemeUnit) : list Target * R :=
  let '(targets, currentTime) := phonemeTargets phonemes 0.02 in
  (silence 0 :: targets ++ [silence (currentTime + 0.02)], currentTime).

(** A target with frequencies that are not negative and an amplitude in
    [0, 1]. *)
Definition targetInRange (x : Target) : Prop :=
  0 <= tf1 x /\ 0 <= tf2 x /\ 0 <= tf3 x /\ 0 <= tamp x <= 1.

(** The search [for (let j = 0; j < targets.length - 1; j++)] for the first
    pair of neighbours around [t]. *)
Fixpoint findBracket (targets : list Target) (t : R) : option (Target * Target) :=
  match targets with
  | a :: (b :: _) as rest =>
    if Rle_dec (time a) t then
      if Rlt_dec t (time b) then Some (a, b) else findBracket rest t
    else findBracket rest t
  | _ => None
  end.

(** The three points pushed for the sample at time [t]. *)
Definition samplePoints (targets : list Target) (t : R)
  : Traj.Point * Traj.Point * Traj.Point :=
  let '(prevTarget, nextTarget) :=
    match findBracket targets t with
    | Some pn => pn
    | None => (hd (silence 0) targets, last targets (silence 0))
    end in
  let dt := time nextTarget - time prevTarget in
  let alpha := if Rlt_dec 0 dt then (t - time prevTarget) / dt else 0 in
  let smoothAlpha := 0.5 - 0.5 * cos (alpha * PI) in
  let f1 := tf1 prevTarget + smoothAlpha * (tf1 nextTarget - tf1 prevTarget) in
  let f2 := tf2 prevTarget + smoothAlpha * (tf2 nextTarget - tf2 prevTarget) in
  let f3 := tf3 prevTarget + smoothAlpha * (tf3 nextTarget - tf3 prevTarget) in
  let amp := tamp prevTarget + smoothAlpha * (tamp nextTarget - tamp prevTarget) in
  (Traj.mkPoint t f1 (amp * FORMANT_AMPLITUDES_F1),
   Traj.mkPoint t f2 (amp * FORMANT_AMPLITUDES_F2),
   Traj.mkPoint t f3 (amp * FORMANT_AMPLITUDES_F3)).

(** A track [{ color, trajectory }]. *)
Record Track : Type := mkTrack { color : string; trajectory : list Traj.Point }.

(** [{ F1: ..., F2: ..., F3: ... }] *)
Record FormantTracks : Type := mkTracks { F1 : Track; F2 : Track; F3 : Track }.

(** [{ duration, formants }] *)
Record Trajectory : Type := mkTrajectory {
  totalDuration : R;
  formants : FormantTracks
}.

Definition sampleInterval : R := 0.01.

(** [phonemesToTrajectory(phonemes)] *)
Definition phonemesToTrajectory (phonemes : list PhonemeUnit) : Trajectory :=
  let '(targets, currentTime) := allTargets phonemes in
  let totalDuration := currentTime + 0.04 in
  let numSamples := Math_ceil (totalDuration / sampleInterval) in
  let samples :=
    map (fun i => samplePoints targets (INR i * sampleInterval))
        (seq 0 (Z.to_nat (numSamples + 1))) in
  mkTrajectory totalDuration
    (mkTracks
       (mkTrack "#e63946" (map (fun s => fst (fst s)) samples))
       (mkTrack "#457b9d" (map (fun s => snd (fst s)) samples))
       (mkTrack "#2a9d8f" (map (fun s => snd s) samples))).

(** The sum of the durations of a phoneme sequence. *)
Definition sumDurations (phonemes : list PhonemeUnit) : R :=
  fold_right (fun u acc => duration u + acc) 0 phonemes.

(** The nine units expected of "hello world": HH AH L OW, the silence
    between the words, W ER L D. *)
Definition helloWorld : list PhonemeUnit :=
  [mkUnit P_HH 0.04; mkUnit P_AH 0.10; mkUnit P_L 0.07; mkUnit P_OW 0.10;
   mkUnit P_SIL 0.06;
   mkUnit P_W 0.07; mkUnit P_ER 0.10; mkUnit P_L 0.07; mkUnit P_D 0.05].

(** [textToTrajectory(text)] *)
Definition textToTrajectory (text : string) : outcome Trajectory :=
  phonemes <- textToPhonemes text ;;
  Returned (phonemesToTrajectory phonemes).

End PhonemeMapper.

(** ** The orchestrator (class [FormantPlayer]) *)

Module FormantPlayer.
Local Open Scope R_scope.
Local Open Scope string_scope.

(** The waveform source [TTSCapture], an external collaborator: whether
    [isReady()] holds, the rate [getSampleRate()] reports, and what the
    promise of [synthesize(text)] settles to (samples, or a rejection for
    any failure or timeout of the synthesizer). *)
Record TTSCapture : Type := mkTTS {
  isReady : bool;
  getSampleRate : R;
  synthesize : string -> outcome (list R)
}.

Inductive AnalysisMethod : Type :=
| lpc               (* 'lpc' *)
| phoneme_mapping.  (* 'phoneme-mapping' *)

(** The utterance data returned by a generate request. *)
Record Utterance : Type := mkUtterance {
  id : string;
  transcript : string;
  duration : R;
  formants : PhonemeMapper.FormantTracks;
  originalAudio : option (list R);
  originalSampleRate : option R;
  analysisMethod : AnalysisMethod
}.

(** The fields of a [FormantPlayer] that generation reads or writes.  The
    callbacks [onAnalysisStart], [onStateChange] and [onAnalysisComplete] are
    [null] unless a client installs them; they are left out. *)
Record Player : Type := mkPlayer {
  useLPCAnalysis : bool;
  ttsCapture : TTSCapture;
  lpcAnalyzer : option LPC.Analyzer;
  currentText : string;
  utteranceData : option Utterance
}.

(** [generateWithLPC(text)]: the analyzer it creates, and its result. *)
Definition generateWithLPC (pl : Player) (text : string)
  : option LPC.Analyzer * outcome Utterance :=
  let ttsSampleRate := getSampleRate (ttsCapture pl) in
  match synthesize (ttsCapture pl) text with
  | Thrown e => (lpcAnalyzer pl, Thrown e)
  | Returned audioBuffer =>
    let an := LPC.playerAnalyzer in
    (Some an,
     trajectories <- LPC.analyze an audioBuffer ttsSampleRate ;;
     let duration := INR (length audioBuffer) / ttsSampleRate in
     Returned
       (mkUtterance "lpc-analyzed" text duration
          (PhonemeMapper.mkTracks
             (PhonemeMapper.mkTrack "#e63946" (Traj.F1 trajectories))
             (PhonemeMapper.mkTrack "#457b9d" (Traj.F2 trajectories))
             (PhonemeMapper.mkTrack "#2a9d8f" (Traj.F3 trajectories)))
          (Some audioBuffer) (Some ttsSampleRate) lpc))
  end.

(** [generateWithPhonemeMapping(text)] *)
Definition generateWithPhonemeMapping (text : string) : outcome Utterance :=
  trajectory <- PhonemeMapper.textToTrajectory text ;;
  Returned
    (mkUtterance "phoneme-mapped" text
       (PhonemeMapper.totalDuration trajectory)
       (PhonemeMapper.formants trajectory)
       None None phoneme_mapping).

(** [this.utteranceData = ...; return this.utteranceData], or the exception
    that prevented the assignment. *)
Definition store (pl : Player) (an : option LPC.Analyzer) (text : string)
    (o : outcome Utterance) : Player * outcome Utterance :=
  match o with
  | Returned u =>
    (mkPlayer (useLPCAnalysis pl) (ttsCapture pl) an text (Some u), Returned u)
  | Thrown e =>
    (mkPlayer (useLPCAnalysis pl) (ttsCapture pl) an text (utteranceData pl), Thrown e)
  end.

(** [generateFromText(text)]: the [try] block, and the [catch] block that
    runs the phoneme mapping when the [try] block threw. *)
Definition generateFromText (pl : Player) (text : string)
  : Player * outcome Utterance :=
  let '(an, attempt) :=
    if useLPCAnalysis pl && isReady (ttsCapture pl)
    then generateWithLPC pl text
    else (lpcAnalyzer pl, generateWithPhonemeMapping text) in
  match attempt with
  | Returned u => store pl an text (Returned u)
  | Thrown _ => store pl an text (generateWithPhonemeMapping text)
  end.

(** A player whose waveform source never became ready: [init] caught the
    failure of [ttsCapture.init()] and cleared [useLPCAnalysis]. *)
Definition noWaveformSource : TTSCapture :=
  mkTTS false 22050 (fun _ => Thrown WaveformSourceError).

Definition fallbackPlayer : Player :=
  mkPlayer false noWaveformSource None "" None.

(** A player whose waveform source is ready but fails to synthesize. *)
Definition failingSourcePlayer : Player :=
  mkPlayer true (mkTTS true 22050 (fun _ => Thrown WaveformSourceError))
           None "" None.

(** A player whose waveform source is ready and synthesizes 500 samples at
    22050 Hz, about 23 ms of audio. *)
Definition shortSourcePlayer : Player :=
  mkPlayer true (mkTTS true 22050 (fun _ => Returned (repeat 0 500)))
           None "" None.

End FormantPlayer.

(* ================================================================== *)
(** * Part II: theorems *)
(* ================================================================== *)

Module QRFacts.
Import QR JSMath.
Section Facts.
Context {F : Type} `{Scalar F}.

Lemma qrIterate_S (k : nat) (M : Matrix) (m : nat) :
  qrIterate (S k) M m = qrIterate k (qrStep M m (wilkinsonShift M m)) m.
Proof.
  unfold qrIterate. revert M. induction k as [|k IH]; intros M.
  - reflexivity.
  - simpl in *. rewrite IH. reflexivity.
Qed.

(** A [break] of the inner loop: no QR step in this test, rows removed. *)
Ltac round_break :=
  eexists; split; [reflexivity|];
  unfold round_ok; cbn [ls_H ls_m ls_iter ls_eigenvalues];
  rewrite Nat.sub_diag; repeat split; try lia;
  left; repeat split; try lia;
  eexists; split; [reflexivity|simpl; lia].

Lemma innerLoop_round (fuel : nat) :
  forall st : LoopState,
    (1 <= ls_m st)%nat ->
    (ls_iter st <= maxIter)%nat ->
    (maxIter < fuel + ls_iter st)%nat ->
    exists st', innerLoop fuel st = Some st' /\ round_ok st st'.
Proof.
  induction fuel as [|fuel IH]; intros [M m iter evs] Hm Hi Hf;
    cbn [innerLoop ls_H ls_m ls_iter ls_eigenvalues] in *.
  - lia.
  - destruct (Nat.ltb_spec iter maxIter) as [Hlt|Hge].
    + destruct (Nat.eqb_spec m 1) as [->|Hm1]; [solve [round_break]|].
      destruct (s_ltb _ _); [solve [round_break]|].
      destruct (Nat.leb_spec 2 m) as [H2|H2]; [|lia].
      cbn [andb].
      destruct (s_ltb _ _); [solve [round_break]|].
      destruct (IH (mkLoop (qrStep M m (wilkinsonShift M m)) m (S iter) evs))
        as [st' [Hrun Hok]]; cbn [ls_H ls_m ls_iter ls_eigenvalues]; try lia.
      exists st'. split; [exact Hrun|].
      destruct Hok as [Hit [HH Hend]]; cbn [ls_H ls_m ls_iter ls_eigenvalues] in *.
      unfold round_ok; cbn [ls_H ls_m ls_iter ls_eigenvalues].
      split; [lia|]. split.
      * replace (ls_iter st' - iter)%nat with (S (ls_iter st' - S iter)) by lia.
        rewrite qrIterate_S. exact HH.
      * exact Hend.
    + eexists; split; [reflexivity|].
      unfold round_ok; cbn [ls_H ls_m ls_iter ls_eigenvalues].
      rewrite Nat.sub_diag. repeat split; try lia.
      right. repeat split; lia.
Qed.

Lemma diagonalRoots_length (M : Matrix) (m : nat) :
  length (diagonalRoots M m) = m.
Proof. unfold diagonalRoots. rewrite length_map, length_seq. reflexivity. Qed.

(** The outer loop returns, with [m] more eigenvalues than it started with,
    as soon as its fuel exceeds the number of rows left. *)
Lemma outerLoop_total (fuel innerFuel : nat) :
  (maxIter < innerFuel)%nat ->
  forall (M : Matrix) (m : nat) (evs : list (Root F)),
    (m < fuel)%nat ->
    exists out, outerLoop fuel innerFuel M m evs = Some out /\
                length out = (length evs + m)%nat.
Proof.
  intros Hin. induction fuel as [|fuel IH]; intros M m evs Hf; [lia|].
  cbn [outerLoop].
  destruct (Nat.ltb_spec 0 m) as [Hpos|Hz].
  - destruct (innerLoop_round innerFuel (mkLoop M m 0 evs))
      as [st [Hrun [Hit [_ Hend]]]]; cbn [ls_H ls_m ls_iter ls_eigenvalues] in *;
      try lia.
    rewrite Hrun.
    destruct (Nat.leb_spec maxIter (ls_iter st)) as [Hcap|Hbrk].
    + destruct Hend as [[Hlt _]|[_ [Hm Hevs]]]; [lia|].
      destruct fuel as [|fuel]; [lia|]. cbn [outerLoop Nat.ltb Nat.leb].
      eexists; split; [reflexivity|].
      rewrite length_app, diagonalRoots_length, Hevs, Hm. reflexivity.
    + destruct Hend as [[_ [Hm [new [Hevs Hlen]]]]|[Heq _]]; [|lia].
      destruct (IH (ls_H st) (ls_m st) (ls_eigenvalues st)) as [out [Hout Hl]];
        [lia|].
      exists out. split; [exact Hout|].
      rewrite Hl, Hevs, length_app. lia.
  - exists evs. split; [reflexivity|lia].
Qed.

(** When a round reaches the iteration cap, the outer loop stops at once
    with the diagonal of the current matrix. *)
Lemma outerLoop_cap (fuel innerFuel : nat) (M : Matrix) (m : nat)
    (evs : list (Root F)) (st : LoopState) :
  (1 <= m)%nat ->
  innerLoop innerFuel (mkLoop M m 0 evs) = Some st ->
  ls_iter st = maxIter ->
  outerLoop (S (S fuel)) innerFuel M m evs
  = Some (ls_eigenvalues st ++ diagonalRoots (ls_H st) (ls_m st)).
Proof.
  intros Hm Hrun Hcap. cbn [outerLoop].
  destruct (Nat.ltb_spec 0 m) as [_|Hz]; [|lia].
  rewrite Hrun, Hcap, Nat.leb_refl. reflexivity.
Qed.

(** C7. The QR eigenvalue iteration terminates on every matrix, whatever the
    arithmetic: with fuel above [n] for the outer loop and above [maxIter]
    = 50 for the inner loop, [computeEigenvalues] returns.  Every round of the
    inner loop ends after [iter <= 50] shifted QR steps (the matrix it leaves
    is the [iter]-th QR iterate of the one it was given), and a round that
    reaches the cap makes the solver return the diagonal of that matrix as
    real eigenvalues, without iterating further. *)
Theorem computeEigenvalues_terminates (matrix : Matrix) (n fuel innerFuel : nat) :
  (n < fuel)%nat ->
  (maxIter < innerFuel)%nat ->
  (exists evs, computeEigenvalues_fuel fuel innerFuel matrix n = Some evs) /\
  (forall (M : Matrix) (m : nat) (evs : list (Root F)),
      (1 <= m)%nat ->
      exists st,
        innerLoop innerFuel (mkLoop M m 0 evs) = Some st /\
        (ls_iter st <= 50)%nat /\
        ls_H st = qrIterate (ls_iter st) M m /\
        (ls_iter st = 50%nat ->
         ls_eigenvalues st = evs /\
         outerLoop (S (S fuel)) innerFuel M m evs
         = Some (evs ++ map (fun i => mkRoot (mget (ls_H st) i i) s_zero) (seq 0 m)))).
Proof.
  intros Hf Hin. split.
  - unfold computeEigenvalues_fuel.
    destruct (outerLoop_total fuel innerFuel Hin (map (fun row => row) matrix) n [])
      as [out [Hout _]]; [exact Hf|].
    exists out. exact Hout.
  - intros M m evs Hm.
    destruct (innerLoop_round innerFuel (mkLoop M m 0 evs))
      as [st [Hrun [Hit [HH Hend]]]]; cbn [ls_H ls_m ls_iter ls_eigenvalues] in *;
      try lia.
    exists st. split; [exact Hrun|].
    rewrite Nat.sub_0_r in HH.
    split; [exact (proj2 Hit)|]. split; [exact HH|].
    intros Hcap.
    destruct Hend as [[Hlt _]|[_ [Hm' Hevs]]]; [unfold maxIter in Hlt; lia|].
    split; [exact Hevs|].
    rewrite (outerLoop_cap fuel innerFuel M m evs st Hm Hrun Hcap).
    rewrite Hevs, Hm'. reflexivity.
Qed.

(** C10. For a coefficient vector of length [n+1] with [n >= 1],
    [findPolynomialRoots] returns exactly [n] root entries, whatever the
    arithmetic does and so whichever of real deflation, complex-pair
    deflation (two entries) and the fallback on the diagonal each round
    takes. *)
Theorem findPolynomialRoots_length (coeffs : list F) (n : nat) :
  length coeffs = S n ->
  (1 <= n)%nat ->
  length (findPolynomialRoots coeffs) = n /\
  (forall fuel innerFuel : nat,
      (n < fuel)%nat -> (maxIter < innerFuel)%nat ->
      exists roots,
        findPolynomialRoots_fuel fuel innerFuel coeffs = Some roots /\
        length roots = n).
Proof.
  intros Hlen Hn.
  assert (Hfuel : forall fuel innerFuel : nat,
             (n < fuel)%nat -> (maxIter < innerFuel)%nat ->
             exists roots,
               findPolynomialRoots_fuel fuel innerFuel coeffs = Some roots /\
               length roots = n).
  { intros fuel innerFuel Hf Hin.
    unfold findPolynomialRoots_fuel, computeEigenvalues_fuel.
    rewrite Hlen. replace (S n - 1)%nat with n by lia.
    destruct (Nat.leb_spec n 0) as [Hz|_]; [lia|].
    destruct (outerLoop_total fuel innerFuel Hin
                (map (fun row => row) (companion coeffs n)) n [])
      as [out [Hout Hl]]; [exact Hf|].
    exists out. split; [exact Hout|exact Hl]. }
  split; [|exact Hfuel].
  destruct (Hfuel (S n) (S maxIter)) as [roots [Hrun Hl]]; try lia.
  unfold findPolynomialRoots, computeEigenvalues.
  unfold findPolynomialRoots_fuel in Hrun.
  rewrite Hlen in *. replace (S n - 1)%nat with n in * by lia.
  destruct (Nat.leb_spec n 0) as [Hz|_]; [lia|].
  rewrite Hrun. exact Hl.
Qed.

End Facts.

(** The termination theorem at a matrix of NaN: no comparison succeeds, the
    round runs its 50 QR steps and the solver returns the diagonal. *)
Lemma computeEigenvalues_terminates_witness :
  (exists evs, computeEigenvalues_fuel 3 51 [[tt; tt]; [tt; tt]] 2 = Some evs) /\
  (exists st,
      innerLoop 51 (mkLoop [[tt; tt]; [tt; tt]] 2 0 []) = Some st /\
      ls_iter st = 50%nat /\
      outerLoop 5 51 [[tt; tt]; [tt; tt]] 2 []
      = Some [mkRoot tt tt; mkRoot tt tt]).
Proof.
  destruct (computeEigenvalues_terminates (F := unit) [[tt; tt]; [tt; tt]] 2 3 51)
    as [Hret Hround]; [lia|unfold maxIter; lia|].
  split; [exact Hret|].
  destruct (Hround [[tt; tt]; [tt; tt]] 2%nat []) as [st [Hrun [_ [_ Hcap]]]]; [lia|].
  assert (Hst : innerLoop 51 (mkLoop [[tt; tt]; [tt; tt]] 2 0 [])
                = Some (mkLoop [[tt; tt]; [tt; tt]] 2 50 []))
    by (vm_compute; reflexivity).
  rewrite Hst in Hrun. injection Hrun as <-.
  eexists. split; [exact Hst|]. split; [reflexivity|].
  destruct (Hcap eq_refl) as [_ Hout]. exact Hout.
Defined.

(** The length theorem at the polynomial [z^2 + 1], over the reals. *)
Lemma findPolynomialRoots_length_witness :
  length (findPolynomialRoots [1; 0; 1]%R) = 2%nat /\
  exists roots,
    findPolynomialRoots_fuel 3 51 [1; 0; 1]%R = Some roots /\
    length roots = 2%nat.
Proof.
  destruct (findPolynomialRoots_length (F := R) [1; 0; 1]%R 2 eq_refl)
    as [Hlen Hfuel]; [lia|].
  split; [exact Hlen|]. apply Hfuel; [lia|unfold maxIter; lia].
Defined.

End QRFacts.

(* ------------------------------------------------------------------ *)
(** ** Typed arrays *)

Module ArrayFacts.

Lemma length_upd {A : Type} (l : list A) (j : nat) (v : A) :
  length (upd l j v) = length l.
Proof.
  revert j. induction l as [|h l IH]; intros [|j]; simpl; try reflexivity.
  rewrite IH. reflexivity.
Qed.

Lemma nth_upd_eq {A : Type} (l : list A) (j : nat) (v d : A) :
  (j < length l)%nat -> nth j (upd l j v) d = v.
Proof.
  revert j. induction l as [|h l IH]; intros [|j] Hj; simpl in *; try lia.
  - reflexivity.
  - apply IH. lia.
Qed.

Lemma nth_upd_neq {A : Type} (l : list A) (i j : nat) (v d : A) :
  i <> j -> nth i (upd l j v) d = nth i l d.
Proof.
  revert i j. induction l as [|h l IH]; intros [|i] [|j] Hij; simpl;
    try reflexivity; try congruence.
  apply IH. congruence.
Qed.

Lemma Forall_upd {A : Type} (P : A -> Prop) (l : list A) (j : nat) (v : A) :
  Forall P l -> P v -> Forall P (upd l j v).
Proof.
  intros Hl Hv. revert j. induction Hl as [|h l Hh Hl IH]; intros [|j]; simpl;
    constructor; auto.
Qed.

(** A loop of writes [a[j] = g(j)] over indices [js]. *)
Lemma length_fold_upd {A : Type} (g : list A -> nat -> A) (js : list nat) (a : list A) :
  length (fold_left (fun a j => upd a j (g a j)) js a) = length a.
Proof.
  revert a. induction js as [|j js IH]; intros a; simpl; [reflexivity|].
  rewrite IH. apply length_upd.
Qed.

Lemma nth_fold_upd_untouched {A : Type} (g : list A -> nat -> A) (js : list nat)
    (a : list A) (i : nat) (d : A) :
  ~ In i js ->
  nth i (fold_left (fun a j => upd a j (g a j)) js a) d = nth i a d.
Proof.
  revert a. induction js as [|j js IH]; intros a Hi; simpl; [reflexivity|].
  rewrite IH by (intros Hin; apply Hi; right; exact Hin).
  apply nth_upd_neq. intros ->. apply Hi. left. reflexivity.
Qed.

End ArrayFacts.

(* ------------------------------------------------------------------ *)
(** ** The LPC analyzer *)

Module LPCFacts.
Import JSMath LPC ArrayFacts.
Local Open Scope R_scope.

(** *** Levinson-Durbin *)

Lemma ld_step_length (r : list R) (i : nat) (st : LDState) :
  length (ld_a (ld_step r i st)) = length (ld_a st).
Proof.
  unfold ld_step; cbn [ld_a].
  apply (length_fold_upd (fun _ j => nth j _ 0)).
Qed.

Lemma ld_step_head (r : list R) (i : nat) (st : LDState) :
  nth 0 (ld_a (ld_step r i st)) 0 = nth 0 (ld_a st) 0.
Proof.
  unfold ld_step; cbn [ld_a].
  apply (nth_fold_upd_untouched (fun _ j => nth j _ 0)).
  rewrite in_seq. lia.
Qed.

Lemma ld_orders_S (r : list R) (i k : nat) (st : LDState) :
  ld_orders r i (S k) st = ld_orders r (S i) k (ld_step r i st).
Proof. reflexivity. Qed.

Lemma ld_orders_length (r : list R) (k : nat) :
  forall i st, length (ld_a (ld_orders r i k st)) = length (ld_a st).
Proof.
  induction k as [|k IH]; intros i st; [reflexivity|].
  rewrite ld_orders_S, IH. apply ld_step_length.
Qed.

Lemma ld_orders_head (r : list R) (k : nat) :
  forall i st, nth 0 (ld_a (ld_orders r i k st)) 0 = nth 0 (ld_a st) 0.
Proof.
  induction k as [|k IH]; intros i st; [reflexivity|].
  rewrite ld_orders_S, IH. apply ld_step_head.
Qed.

(** The loop with [break] stops at the first order that leaves [e <= 0],
    or runs all its orders. *)
Lemma ld_loop_halts (r : list R) (count : nat) :
  forall (i : nat) (st : LDState),
  exists k,
    (k <= count)%nat /\
    ld_loop r count i st = ld_orders r i k st /\
    (forall j, (1 <= j < k)%nat -> 0 < ld_e (ld_orders r i j st)) /\
    ((k < count)%nat -> (1 <= k)%nat /\ ld_e (ld_orders r i k st) <= 0).
Proof.
  induction count as [|count IH]; intros i st.
  - exists 0%nat. repeat split; try lia. 
  - cbn [ld_loop].
    destruct (Rle_dec (ld_e (ld_step r i st)) 0) as [Hle|Hgt].
    + exists 1%nat. repeat split; try lia. exact Hle.
    + destruct (IH (S i) (ld_step r i st)) as [k [Hk [Hrun [Hpos Hstop]]]].
      exists (S k). split; [lia|]. split; [rewrite ld_orders_S; exact Hrun|].
      split.
      * intros [|[|j]] Hj; try lia.
        -- change (ld_orders r i 1 st) with (ld_step r i st). lra.
        -- rewrite ld_orders_S. apply Hpos. lia.
      * intros Hlt. split; [lia|]. rewrite ld_orders_S. apply Hstop. lia.
Qed.

Lemma identity_coeffs (p : nat) : upd (repeat 0 (p + 1)) 0 1 = 1 :: repeat 0 p.
Proof. rewrite Nat.add_1_r. reflexivity. Qed.

(** The gain of an LPC model is never negative. *)
Lemma levinsonDurbin_gain_nonneg (p : nat) (r : list R) :
  0 <= gain (levinsonDurbin p r).
Proof.
  unfold levinsonDurbin.
  destruct (Rlt_dec (nth 0 r 0) 1e-10); cbn [gain]; [lra|apply sqrt_pos].
Qed.

(** C5.  [levinsonDurbin(r)], for an analyzer of order [p].  If
    [r[0] < 1e-10] it returns gain 0 and the identity coefficients
    [1, 0, ..., 0] without running the recursion.  Otherwise it runs the
    orders 1, 2, ... of the recursion and stops after the first order [k]
    that leaves the prediction error [e <= 0] (after order [p] if there is
    none); it returns the coefficients reached then and the gain
    [sqrt(max(e, 0))].  In both cases the coefficient vector has length
    [p + 1] and starts with 1, and the gain is not negative. *)
Theorem levinsonDurbin_spec (p : nat) (r : list R) :
  let model := levinsonDurbin p r in
  let start := mkLD (1 :: repeat 0 p) (repeat 0 (p + 1)) (nth 0 r 0) in
  (nth 0 r 0 < 1e-10 ->
   coeffs model = 1 :: repeat 0 p /\ gain model = 0) /\
  (~ nth 0 r 0 < 1e-10 ->
   exists k,
     (k <= p)%nat /\
     (forall j, (j < k)%nat -> 0 < ld_e (ld_orders r 1 j start)) /\
     ((k < p)%nat -> ld_e (ld_orders r 1 k start) <= 0) /\
     coeffs model = ld_a (ld_orders r 1 k start) /\
     gain model = sqrt (Rmax (ld_e (ld_orders r 1 k start)) 0)) /\
  length (coeffs model) = (p + 1)%nat /\
  nth 0 (coeffs model) 0 = 1 /\
  0 <= gain model.
Proof.
  cbv zeta. unfold levinsonDurbin. rewrite identity_coeffs.
  set (start := mkLD (1 :: repeat 0 p) (repeat 0 (p + 1)) (nth 0 r 0)).
  destruct (ld_loop_halts r p 1 start) as [k [Hk [Hrun [Hpos Hstop]]]].
  destruct (Rlt_dec (nth 0 r 0) 1e-10) as [Hsilent|Hloud]; cbn [coeffs gain].
  - split; [intros _; split; reflexivity|].
    split; [intros Hn; contradiction|].
    split; [simpl; rewrite repeat_length; lia|].
    split; [reflexivity|lra].
  - split; [intros Hs; contradiction|].
    split.
    + intros _. exists k. split; [exact Hk|]. split.
      * intros [|j] Hj; [|apply Hpos; lia].
        change (ld_orders r 1 0 start) with start. cbn [ld_e start]. lra.
      * split; [intros Hlt; apply Hstop; exact Hlt|].
        rewrite Hrun. split; reflexivity.
    + rewrite Hrun, ld_orders_length, ld_orders_head. cbn [ld_a start].
      split; [simpl; rewrite repeat_length; lia|].
      split; [reflexivity|apply sqrt_pos].
Qed.

(** The theorem on a silent frame and on a frame of energy 1, at order 2. *)
Lemma levinsonDurbin_spec_witness :
  (coeffs (levinsonDurbin 2 [0; 0; 0]) = [1; 0; 0] /\
   gain (levinsonDurbin 2 [0; 0; 0]) = 0) /\
  (exists k,
      (k <= 2)%nat /\
      gain (levinsonDurbin 2 [1; 0; 0])
      = sqrt (Rmax (ld_e (ld_orders [1; 0; 0] 1 k
                            (mkLD [1; 0; 0] [0; 0; 0] 1))) 0)).
Proof.
  split.
  - destruct (levinsonDurbin_spec 2 [0; 0; 0]) as [Hsilent _].
    apply Hsilent. simpl. lra.
  - destruct (levinsonDurbin_spec 2 [1; 0; 0]) as [_ [Hloud _]].
    destruct Hloud as [k [Hk [_ [_ [_ Hgain]]]]]; [simpl; lra|].
    exists k. split; [exact Hk|exact Hgain].
Defined.

(** *** The formant selector *)

Lemma Rltb_true (x y : R) : Rltb x y = true <-> x < y.
Proof. unfold Rltb. destruct (Rlt_dec x y); split; intros; try discriminate; tauto. Qed.

Lemma spec_keepsb_true (sampleRate : R) (root : Root R) :
  spec_keepsb sampleRate root = true <-> spec_keeps sampleRate root.
Proof.
  unfold spec_keepsb, spec_keeps.
  repeat rewrite andb_true_iff. repeat rewrite Rltb_true. tauto.
Qed.

Lemma collectFormants_filter (sampleRate gain : R) (roots : list (Root R)) :
  collectFormants sampleRate gain roots
  = map (rootFormant sampleRate gain) (filter (spec_keepsb sampleRate) roots).
Proof.
  induction roots as [|root rest IH]; [reflexivity|].
  cbn [collectFormants filter]. unfold spec_keepsb at 1.
  change (f_freq (rootFormant sampleRate gain root))
    with (spec_frequency sampleRate root).
  change (f_bandwidth (rootFormant sampleRate gain root))
    with (spec_bandwidth sampleRate root).
  destruct (Rle_dec (imag root) 0.001) as [Hle|Hgt].
  - replace (Rltb 0.001 (imag root)) with false
      by (symmetry; apply not_true_is_false; rewrite Rltb_true; lra).
    exact IH.
  - replace (Rltb 0.001 (imag root)) with true
      by (symmetry; apply Rltb_true; lra).
    cbn [andb].
    destruct (Rltb 90 _ && Rltb _ 4000 && Rltb 0 _ && Rltb _ 600);
      cbn [map]; rewrite IH; reflexivity.
Qed.

Lemma insertFormant_perm (x : Formant) (l : list Formant) :
  Permutation (insertFormant x l) (x :: l).
Proof.
  induction l as [|y l IH]; simpl; [apply Permutation_refl|].
  destruct (Rle_dec (f_freq x) (f_freq y)); [apply Permutation_refl|].
  apply perm_trans with (y :: x :: l); [apply perm_skip; exact IH|apply perm_swap].
Qed.

Lemma sortFormants_perm (l : list Formant) : Permutation (sortFormants l) l.
Proof.
  induction l as [|x l IH]; simpl; [apply perm_nil|].
  apply perm_trans with (x :: sortFormants l);
    [apply insertFormant_perm|apply perm_skip; exact IH].
Qed.

Lemma insertFormant_sorted (x : Formant) (l : list Formant) :
  StronglySorted freq_le l -> StronglySorted freq_le (insertFormant x l).
Proof.
  induction 1 as [|y l Hs IH Hy]; simpl.
  - constructor; constructor.
  - destruct (Rle_dec (f_freq x) (f_freq y)) as [Hle|Hgt].
    + constructor; [constructor; assumption|].
      constructor; [exact Hle|].
      eapply Forall_impl; [|exact Hy]. unfold freq_le. intros z Hz. lra.
    + constructor; [exact IH|].
      apply (Permutation_Forall (Permutation_sym (insertFormant_perm x l))).
      constructor; [unfold freq_le; lra|exact Hy].
Qed.

Lemma sortFormants_sorted (l : list Formant) :
  StronglySorted Rle (map f_freq (sortFormants l)).
Proof.
  assert (Hs : StronglySorted freq_le (sortFormants l)).
  { induction l as [|x l IH]; simpl; [constructor|].
    apply insertFormant_sorted. exact IH. }
  induction Hs as [|y l' Hs IH Hy]; simpl; constructor; [exact IH|].
  rewrite Forall_map. exact Hy.
Qed.

Lemma combine_map {A B C : Type} (f : A -> B) (g : A -> C) (l : list A) :
  combine (map f l) (map g l) = map (fun x => (f x, g x)) l.
Proof. induction l as [|x l IH]; simpl; [reflexivity|rewrite IH; reflexivity]. Qed.

(** Every candidate that [coeffsToFormants] returns has a frequency above
    90 Hz, and a magnitude that is not negative when the gain is not. *)
Lemma rootFormant_magnitude_nonneg (sampleRate gain : R) (root : Root R) :
  0 <= gain -> 0 <= f_magnitude (rootFormant sampleRate gain root).
Proof.
  intros Hg. cbn [rootFormant f_magnitude].
  apply Rmult_le_pos; [exact Hg|].
  apply Rlt_le, Rinv_0_lt_compat.
  apply Rlt_le_trans with 0.01; [lra|apply Rmax_r].
Qed.

Lemma coeffsToFormants_magnitudes (sampleRate : R) (cs : list R) (gain : R) :
  0 <= gain ->
  Forall (Rle 0) (magnitudes (coeffsToFormants sampleRate cs gain)).
Proof.
  intros Hg. unfold coeffsToFormants; cbn [magnitudes].
  rewrite Forall_map.
  apply (Permutation_Forall (Permutation_sym (sortFormants_perm _))).
  rewrite collectFormants_filter, Forall_map.
  apply Forall_forall. intros root _.
  apply rootFormant_magnitude_nonneg. exact Hg.
Qed.

Lemma coeffsToFormants_frequencies (sampleRate : R) (cs : list R) (gain : R) :
  Forall (Rlt 90) (frequencies (coeffsToFormants sampleRate cs gain)).
Proof.
  unfold coeffsToFormants; cbn [frequencies].
  rewrite Forall_map.
  apply (Permutation_Forall (Permutation_sym (sortFormants_perm _))).
  rewrite collectFormants_filter, Forall_map.
  apply Forall_forall. intros root Hin.
  apply filter_In in Hin. destruct Hin as [_ Hk].
  apply spec_keepsb_true in Hk. destruct Hk as [_ [[Hf _] _]]. exact Hf.
Qed.

(** The loop over the three slots, slot by slot. *)
Lemma smooth_slots (fr : FrameFormants) (a0 a1 a2 m0 m1 m2 : R) :
  fold_left (smoothSlot fr) [0; 1; 2]%nat ([a0; a1; a2], [m0; m1; m2])
  = ([fst (smoothedSlot fr 0 a0 m0); fst (smoothedSlot fr 1 a1 m1);
      fst (smoothedSlot fr 2 a2 m2)],
     [snd (smoothedSlot fr 0 a0 m0); snd (smoothedSlot fr 1 a1 m1);
      snd (smoothedSlot fr 2 a2 m2)]).
Proof.
  cbn [fold_left]. unfold smoothSlot, smoothedSlot.
  destruct (nth_error (frequencies fr) 0) as [f0|];
    [destruct (Rlt_dec 0 f0)|];
    (destruct (nth_error (frequencies fr) 1) as [f1|];
     [destruct (Rlt_dec 0 f1)|]);
    (destruct (nth_error (frequencies fr) 2) as [f2|];
     [destruct (Rlt_dec 0 f2)|]);
    reflexivity.
Qed.

(** C6.  The formant selector keeps exactly the roots with imaginary part
    above 0.001 whose frequency [atan2(imag, real) * sampleRate / (2 pi)]
    lies in (90, 4000) Hz and whose bandwidth [-ln(rho) * sampleRate / pi],
    [rho = |root|], lies in (0, 600) Hz; each kept root becomes a candidate
    of that frequency and of magnitude [gain / max(1 - rho, 0.01)]; the
    candidates are returned sorted by ascending frequency; and the hop loop
    gives its slots 0, 1, 2 (F1, F2, F3) the first, second and third of
    them, a slot without candidate keeping its frequency and decaying its
    magnitude. *)
Theorem coeffsToFormants_selects (sampleRate : R) (cs : list R) (gain : R) :
  let out := coeffsToFormants sampleRate cs gain in
  let kept := filter (spec_keepsb sampleRate) (QR.findPolynomialRoots cs) in
  (forall root, spec_keepsb sampleRate root = true <-> spec_keeps sampleRate root) /\
  Permutation (combine (frequencies out) (magnitudes out))
              (map (fun root => (spec_frequency sampleRate root,
                                 spec_magnitude gain root)) kept) /\
  StronglySorted Rle (frequencies out) /\
  length (frequencies out) = length (magnitudes out) /\
  (forall (an : Analyzer) (hop : nat) (T : Trajectories) (a0 a1 a2 m0 m1 m2 : R),
      let st' := trackFrame an (mkTrack [a0; a1; a2] [m0; m1; m2] T) hop out in
      Forall (fun i =>
                match nth_error (frequencies out) i, nth_error (magnitudes out) i with
                | Some f, Some m =>
                  nth i (prevFreqs st') 0 = nth i [a0; a1; a2] 0 * (1 - 0.3) + f * 0.3 /\
                  nth i (prevMags st') 0 = nth i [m0; m1; m2] 0 * (1 - 0.3) + m * 0.3
                | None, None =>
                  nth i (prevFreqs st') 0 = nth i [a0; a1; a2] 0 /\
                  nth i (prevMags st') 0 = nth i [m0; m1; m2] 0 * 0.8
                | _, _ => False
                end)
             [0; 1; 2]%nat).
Proof.
  cbv zeta.
  split; [intros root; apply spec_keepsb_true|].
  split.
  { unfold coeffsToFormants; cbn [frequencies magnitudes].
    rewrite combine_map.
    apply perm_trans with
      (map (fun c => (f_freq c, f_magnitude c))
           (collectFormants sampleRate gain (QR.findPolynomialRoots cs))).
    - apply Permutation_map, sortFormants_perm.
    - rewrite collectFormants_filter, map_map. apply Permutation_refl. }
  split; [apply sortFormants_sorted|].
  split; [unfold coeffsToFormants; cbn [frequencies magnitudes];
          rewrite !length_map; reflexivity|].
  intros an hop T a0 a1 a2 m0 m1 m2.
  pose proof (coeffsToFormants_frequencies sampleRate cs gain) as Hpos.
  assert (Hlen : length (frequencies (coeffsToFormants sampleRate cs gain))
                 = length (magnitudes (coeffsToFormants sampleRate cs gain)))
    by (unfold coeffsToFormants; cbn [frequencies magnitudes];
        rewrite !length_map; reflexivity).
  set (out := coeffsToFormants sampleRate cs gain) in *.
  unfold trackFrame. cbn [prevFreqs prevMags]. rewrite smooth_slots.
  cbn [prevFreqs prevMags].
  rewrite Forall_forall in Hpos.
  repeat constructor;
    match goal with
    | |- match nth_error _ ?i with _ => _ end =>
      unfold smoothedSlot;
      destruct (nth_error (frequencies out) i) as [f|] eqn:Hf;
      destruct (nth_error (magnitudes out) i) as [m|] eqn:Hm
    end;
    try (apply nth_error_None in Hm;
         assert (nth_error (frequencies out) _ <> None) as Hne
             by (rewrite Hf; discriminate);
         apply nth_error_Some in Hne; lia);
    try (apply nth_error_None in Hf;
         assert (nth_error (magnitudes out) _ <> None) as Hne
             by (rewrite Hm; discriminate);
         apply nth_error_Some in Hne; lia);
    try (pose proof (Hpos f (nth_error_In _ _ Hf));
         destruct (Rlt_dec 0 f); [|lra]);
    cbn [fst snd nth orZero]; unfold smoothing; split; reflexivity.
Qed.

(** *** The hop loop *)

Lemma smoothedSlot_range (fr : FrameFormants) (i : nat) (a m : R) :
  Forall (Rle 0) (magnitudes fr) -> 0 < a -> 0 <= m ->
  0 < fst (smoothedSlot fr i a m) /\ 0 <= snd (smoothedSlot fr i a m).
Proof.
  intros Hmags Ha Hm. unfold smoothedSlot, smoothing.
  assert (Hz : 0 <= orZero (nth_error (magnitudes fr) i)).
  { destruct (nth_error (magnitudes fr) i) as [x|] eqn:Hx; simpl; [|lra].
    rewrite Forall_forall in Hmags. apply Hmags. eapply nth_error_In. exact Hx. }
  destruct (nth_error (frequencies fr) i) as [f|];
    [destruct (Rlt_dec 0 f)|]; cbn [fst snd]; split; nra.
Qed.

Lemma ratio_in_unit (x M w : R) :
  0 <= x <= M -> 0 < M -> 0 <= w -> 0 <= x / M * w <= w.
Proof.
  intros [H0 HM] Hpos Hw.
  assert (Hr : 0 <= x / M <= 1).
  { split.
    - apply Rmult_le_pos; [exact H0|apply Rlt_le, Rinv_0_lt_compat; exact Hpos].
    - apply Rmult_le_reg_r with M; [exact Hpos|].
      unfold Rdiv. rewrite Rmult_assoc, Rinv_l by lra. lra. }
  nra.
Qed.

Lemma maxMag_bounds (m0 m1 m2 : R) :
  let maxMag := Math_max_list [m0; m1; m2] 0.001 in
  0 < maxMag /\ m0 <= maxMag /\ m1 <= maxMag /\ m2 <= maxMag.
Proof.
  cbn [Math_max_list fold_right].
  pose proof (Rmax_l m0 (Rmax m1 (Rmax m2 0.001))).
  pose proof (Rmax_r m0 (Rmax m1 (Rmax m2 0.001))).
  pose proof (Rmax_l m1 (Rmax m2 0.001)).
  pose proof (Rmax_r m1 (Rmax m2 0.001)).
  pose proof (Rmax_l m2 0.001).
  pose proof (Rmax_r m2 0.001).
  repeat split; lra.
Qed.

Lemma trackFrame_inv (an : Analyzer) (n : nat) (st : TrackState) (fr : FrameFormants) :
  Forall (Rle 0) (magnitudes fr) ->
  loopInv an n st -> loopInv an (S n) (trackFrame an st n fr).
Proof.
  intros Hfr [[a0 [a1 [a2 [m0 [m1 [m2 [Hpf [Hpm Hpos]]]]]]]]
              [Ht1 [Ht2 [Ht3 [Hr1 [Hr2 Hr3]]]]]].
  destruct Hpos as [Ha0 [Ha1 [Ha2 [Hm0 [Hm1 Hm2]]]]].
  unfold trackFrame. rewrite Hpf, Hpm, smooth_slots.
  destruct (smoothedSlot_range fr 0 a0 m0 Hfr Ha0 Hm0) as [Hf0 Hg0].
  destruct (smoothedSlot_range fr 1 a1 m1 Hfr Ha1 Hm1) as [Hf1 Hg1].
  destruct (smoothedSlot_range fr 2 a2 m2 Hfr Ha2 Hm2) as [Hf2 Hg2].
  set (b0 := fst (smoothedSlot fr 0 a0 m0)) in *.
  set (b1 := fst (smoothedSlot fr 1 a1 m1)) in *.
  set (b2 := fst (smoothedSlot fr 2 a2 m2)) in *.
  set (g0 := snd (smoothedSlot fr 0 a0 m0)) in *.
  set (g1 := snd (smoothedSlot fr 1 a1 m1)) in *.
  set (g2 := snd (smoothedSlot fr 2 a2 m2)) in *.
  destruct (maxMag_bounds g0 g1 g2) as [HM [HM0 [HM1 HM2]]].
  set (maxMag := Math_max_list [g0; g1; g2] 0.001) in *.
  unfold loopInv. cbn [prevFreqs prevMags trajectories F1 F2 F3 nth].
  split.
  { exists b0, b1, b2, g0, g1, g2. repeat split; assumption || reflexivity. }
  rewrite !map_app, seq_S, map_app, Ht1, Ht2, Ht3. cbn [map t Nat.add].
  unfold hopTime at 2 4 6.
  repeat split; try reflexivity;
    apply Forall_app; (split; [assumption|]);
    (constructor; [|constructor]); unfold pointInRange; cbn [freq amp];
    (split; [lra|]); apply ratio_in_unit;
    unfold weightF1, weightF2, weightF3; lra.
Qed.

Lemma trackLoop_inv (an : Analyzer) (frames : list FrameFormants) :
  validFrames frames ->
  forall (n : nat) (st : TrackState),
    loopInv an n st ->
    loopInv an (n + length frames) (trackLoop an n frames st).
Proof.
  induction 1 as [|fr frames Hfr _ IH]; intros n st Hinv; cbn [trackLoop length].
  - rewrite Nat.add_0_r. exact Hinv.
  - replace (n + S (length frames))%nat with (S n + length frames)%nat by lia.
    apply IH. apply trackFrame_inv; assumption.
Qed.

Lemma initialTrack_inv (an : Analyzer) : loopInv an 0 initialTrack.
Proof.
  unfold loopInv, initialTrack; cbn.
  split; [exists 500, 1500, 2500, 0, 0, 0; repeat split; lra|].
  repeat split; constructor.
Qed.

Lemma rawTracks_inv (an : Analyzer) (frames : list FrameFormants) :
  validFrames frames ->
  loopInv an (length frames) (trackLoop an 0 frames initialTrack).
Proof.
  intros Hv. apply (trackLoop_inv an frames Hv 0 initialTrack), initialTrack_inv.
Qed.

(** The frames that [analyze] hands to the hop loop are valid. *)
Lemma framesOf_valid (an : Analyzer) (audio : list R) : validFrames (framesOf an audio).
Proof.
  unfold validFrames, framesOf. rewrite Forall_map.
  apply Forall_forall. intros hop _. unfold frameFormants.
  apply coeffsToFormants_magnitudes, levinsonDurbin_gain_nonneg.
Qed.

(** *** The global normalization *)

Lemma Math_pow_one (y : R) : Math_pow 1 y = 1.
Proof.
  unfold Math_pow. destruct (Req_dec_T 1 0) as [H|_]; [lra|].
  unfold Rpower. rewrite ln_1, Rmult_0_r. apply exp_0.
Qed.

Lemma Math_pow_below_one (x y : R) : 0 <= x < 1 -> 0 < y -> 0 <= Math_pow x y < 1.
Proof.
  intros [H0 H1] Hy. unfold Math_pow.
  destruct (Req_dec_T x 0) as [_|Hx]; [lra|].
  unfold Rpower. split; [apply Rlt_le, exp_pos|].
  rewrite <- exp_0. apply exp_increasing.
  assert (ln x < 0) by (rewrite <- ln_1; apply ln_increasing; lra).
  nra.
Qed.

Lemma Math_pow_unit (x y : R) : 0 <= x <= 1 -> 0 < y -> 0 <= Math_pow x y <= 1.
Proof.
  intros [H0 H1] Hy. destruct (Req_dec_T x 1) as [->|Hne].
  - rewrite Math_pow_one. lra.
  - destruct (Math_pow_below_one x y); lra.
Qed.

Lemma globalMaxOf_allPoints (T : Trajectories) :
  globalMaxOf T = trackMax 0 (allPoints T).
Proof.
  unfold globalMaxOf, allPoints, trackMax. cbn [fold_left].
  rewrite !fold_left_app. reflexivity.
Qed.

Lemma trackMax_ge (track : list Point) :
  forall g, g <= trackMax g track /\
            forall p, In p track -> amp p <= trackMax g track.
Proof.
  induction track as [|q track IH]; intros g.
  - cbn. split; [lra|intros p []].
  - change (trackMax g (q :: track)) with (trackMax (Rmax g (amp q)) track).
    destruct (IH (Rmax g (amp q))) as [Hg Hin].
    pose proof (Rmax_l g (amp q)). pose proof (Rmax_r g (amp q)).
    split; [lra|]. intros p [->|Hp]; [lra|apply Hin; exact Hp].
Qed.

Lemma trackMax_attained (track : list Point) :
  forall g, trackMax g track = g \/
            exists p, In p track /\ amp p = trackMax g track.
Proof.
  induction track as [|q track IH]; intros g; [left; reflexivity|].
  change (trackMax g (q :: track)) with (trackMax (Rmax g (amp q)) track).
  destruct (IH (Rmax g (amp q))) as [Heq|[p [Hp Hamp]]].
  - rewrite Heq.
    unfold Rmax. destruct (Rle_dec g (amp q)).
    + right. exists q. split; [left; reflexivity|reflexivity].
    + left. reflexivity.
  - right. exists p. split; [right; exact Hp|exact Hamp].
Qed.

Lemma globalMaxOf_ge (T : Trajectories) :
  0 <= globalMaxOf T /\ forall p, In p (allPoints T) -> amp p <= globalMaxOf T.
Proof. rewrite globalMaxOf_allPoints. apply trackMax_ge. Qed.

Lemma globalMaxOf_attained (T : Trajectories) :
  0 < globalMaxOf T -> exists p, In p (allPoints T) /\ amp p = globalMaxOf T.
Proof.
  rewrite globalMaxOf_allPoints. intros Hpos.
  destruct (trackMax_attained (allPoints T) 0) as [Heq|Hex]; [lra|exact Hex].
Qed.

Lemma normalizeAmplitudes_loud (T : Trajectories) :
  0 < globalMaxOf T ->
  normalizeAmplitudes T
  = mkTraj (map (normalizePoint (globalMaxOf T) weightF1) (F1 T))
           (map (normalizePoint (globalMaxOf T) weightF2) (F2 T))
           (map (normalizePoint (globalMaxOf T) weightF3) (F3 T)).
Proof.
  intros Hpos. unfold normalizeAmplitudes.
  destruct (Rlt_dec 0 (globalMaxOf T)); [reflexivity|contradiction].
Qed.

(** The point that held the maximum ends at the weight of its tier; a point
    below the maximum ends below it. *)
Lemma normalizePoint_range (G w w0 : R) (p : Point) :
  0 < G -> 0 <= w -> pointInRange w0 p -> amp p <= G ->
  pointInRange w (normalizePoint G w p) /\
  (amp p = G -> amp (normalizePoint G w p) = w) /\
  (amp p < G -> 0 < w -> amp (normalizePoint G w p) < w).
Proof.
  intros HG Hw [Hf [Ha0 _]] HaG.
  assert (Hr : 0 <= amp p / G <= 1).
  { pose proof (ratio_in_unit (amp p) G 1 (conj Ha0 HaG) HG). lra. }
  unfold normalizePoint, pointInRange; cbn [freq amp].
  pose proof (Math_pow_unit (amp p / G) 0.6 Hr) as Hpow.
  split; [split; [exact Hf|nra]|]. split.
  - intros ->. unfold Rdiv. rewrite Rinv_r by lra. rewrite Math_pow_one. lra.
  - intros Hlt Hwpos.
    assert (Hr1 : amp p / G < 1).
    { apply Rmult_lt_reg_r with G; [exact HG|].
      unfold Rdiv. rewrite Rmult_assoc, Rinv_l by lra. lra. }
    destruct (Math_pow_below_one (amp p / G) 0.6); [lra|lra|nra].
Qed.

Lemma times_normalize (G w : R) (track : list Point) :
  map t (map (normalizePoint G w) track) = map t track.
Proof. rewrite map_map. reflexivity. Qed.

Lemma normalizeAmplitudes_inRange (T : Trajectories) :
  tracksInRange T -> tracksInRange (normalizeAmplitudes T).
Proof.
  intros [H1 [H2 H3]]. unfold normalizeAmplitudes.
  destruct (Rlt_dec 0 (globalMaxOf T)) as [HG|_]; [|repeat split; assumption].
  destruct (globalMaxOf_ge T) as [_ Hge]. unfold allPoints in Hge.
  unfold tracksInRange; cbn [F1 F2 F3].
  repeat split; rewrite Forall_map; apply Forall_forall; intros p Hp;
    [rewrite Forall_forall in H1; specialize (H1 p Hp)
    |rewrite Forall_forall in H2; specialize (H2 p Hp)
    |rewrite Forall_forall in H3; specialize (H3 p Hp)];
    (eapply normalizePoint_range;
     [exact HG
     |unfold weightF1, weightF2, weightF3; lra
     |eassumption
     |apply Hge; rewrite !in_app_iff; tauto]).
Qed.

(** After the pass the maximum is at most 1, and it is 1 exactly when a
    point of F1 held the maximum before. *)
Lemma normalized_max (T : Trajectories) :
  tracksInRange T -> 0 < globalMaxOf T ->
  globalMaxOf (normalizeAmplitudes T) <= 1 /\
  (globalMaxOf (normalizeAmplitudes T) = 1 <->
   exists p, In p (F1 T) /\ amp p = globalMaxOf T).
Proof.
  intros Hin HG.
  pose proof (normalizeAmplitudes_inRange T Hin) as [H1 [H2 H3]].
  destruct (globalMaxOf_ge (normalizeAmplitudes T)) as [Hpos Hge].
  destruct Hin as [R1 [R2 R3]].
  destruct (globalMaxOf_ge T) as [_ HgeT]. unfold allPoints in HgeT.
  rewrite Forall_forall in H1, H2, H3, R1.
  assert (Hle : globalMaxOf (normalizeAmplitudes T) <= 1).
  { destruct (Rle_lt_dec (globalMaxOf (normalizeAmplitudes T)) 0) as [|Hp]; [lra|].
    destruct (globalMaxOf_attained _ Hp) as [q [Hq <-]].
    unfold allPoints in Hq. rewrite !in_app_iff in Hq.
    unfold pointInRange, weightF1, weightF2, weightF3 in *.
    destruct Hq as [Hq|[Hq|Hq]];
      [destruct (H1 q Hq)|destruct (H2 q Hq)|destruct (H3 q Hq)]; lra. }
  split; [exact Hle|]. split.
  - intros Hone.
    destruct (globalMaxOf_attained (normalizeAmplitudes T)) as [q [Hq Hamp]]; [lra|].
    rewrite Hone in Hamp.
    unfold allPoints in Hq. rewrite !in_app_iff in Hq.
    unfold pointInRange, weightF1, weightF2, weightF3 in *.
    destruct Hq as [Hq|[Hq|Hq]];
      [|destruct (H2 q Hq); lra|destruct (H3 q Hq); lra].
    rewrite (normalizeAmplitudes_loud T HG) in Hq. cbn [F1] in Hq.
    apply in_map_iff in Hq. destruct Hq as [p [<- Hp]].
    exists p. split; [exact Hp|].
    assert (HpG : amp p <= globalMaxOf T)
      by (apply HgeT; rewrite !in_app_iff; tauto).
    destruct (Req_dec_T (amp p) (globalMaxOf T)) as [Heq|Hne]; [exact Heq|].
    destruct (normalizePoint_range (globalMaxOf T) weightF1 weightF1 p HG)
      as [_ [_ Hlt]]; [unfold weightF1; lra|apply R1; exact Hp|exact HpG|].
    assert (Hbelow : amp p < globalMaxOf T) by lra.
    specialize (Hlt Hbelow). unfold weightF1 in *. lra.
  - intros [p [Hp Hamp]].
    apply Rle_antisym; [exact Hle|].
    replace 1 with (amp (normalizePoint (globalMaxOf T) weightF1 p)).
    + apply Hge. unfold allPoints. rewrite (normalizeAmplitudes_loud T HG).
      cbn [F1 F2 F3]. rewrite in_app_iff. left. apply in_map. exact Hp.
    + destruct (normalizePoint_range (globalMaxOf T) weightF1 weightF1 p HG)
        as [_ [Heq _]]; [unfold weightF1; lra|apply R1; exact Hp|lra|].
      rewrite (Heq Hamp). unfold weightF1. lra.
Qed.

Lemma rawTracks_inRange (an : Analyzer) (frames : list FrameFormants) :
  validFrames frames -> tracksInRange (rawTracks an frames).
Proof.
  intros Hv. destruct (rawTracks_inv an frames Hv) as [_ [_ [_ [_ H]]]]. exact H.
Qed.

(** The bandwidth of a pole of magnitude [rho] in (0, 1). *)
Lemma ln_below_one (rho : R) : 0 < rho < 1 -> 0 < - ln rho < / rho - 1.
Proof.
  intros [H0 H1].
  assert (Hneg : ln rho < 0) by (rewrite <- ln_1; apply ln_increasing; lra).
  split; [lra|].
  pose proof (exp_ineq1 (- ln rho)) as Hexp.
  rewrite exp_Ropp, exp_ln in Hexp by exact H0.
  lra.
Qed.

Lemma pole_bandwidth (rho : R) :
  0.9 <= rho < 1 -> 0 < - ln rho * targetRate / PI < 600.
Proof.
  intros [Hlo Hhi]. destruct (ln_below_one rho) as [Hpos Hup]; [lra|].
  assert (Hinv : / rho <= / 0.9) by (apply Rinv_le_contravar; lra).
  pose proof PI2_3_2 as Hpi.
  assert (HPI : 0 < / PI) by (apply Rinv_0_lt_compat; lra).
  unfold targetRate, Rdiv. split; [apply Rmult_lt_0_compat; [nra|exact HPI]|].
  apply Rmult_lt_reg_r with PI; [lra|].
  rewrite Rmult_assoc, Rinv_l by lra. nra.
Qed.

(** The selector turns [sharpPoles], with gain 0.1, into the candidates of
    [sharpSecondFormant]. *)
Lemma sharpPoles_selected :
  let formants := sortFormants (collectFormants targetRate 0.1 sharpPoles) in
  [mkFrame (map f_freq formants) (map f_magnitude formants)] = sharpSecondFormant.
Proof.
  cbv zeta.
  assert (Hc : sqrt 0.405 * sqrt 0.405 = 0.405) by (apply sqrt_sqrt; lra).
  pose proof (sqrt_pos 0.405) as Hc0.
  set (c := sqrt 0.405) in *.
  assert (Hcpos : 0.6 < c) by nra.
  pose proof PI2_3_2 as Hpi.
  assert (Hrho1 : spec_rho (mkRoot c c) = 0.9).
  { unfold spec_rho; cbn [real imag].
    replace (c * c + c * c) with (0.9 * 0.9) by lra. apply sqrt_square. lra. }
  assert (Hrho2 : spec_rho (mkRoot 0 0.99) = 0.99).
  { unfold spec_rho; cbn [real imag].
    replace (0 * 0 + 0.99 * 0.99) with (0.99 * 0.99) by lra. apply sqrt_square. lra. }
  assert (Hf1 : spec_frequency targetRate (mkRoot c c) = 1000).
  { unfold spec_frequency, Math_atan2, targetRate; cbn [real imag].
    destruct (Rlt_dec 0 c) as [_|Hn]; [|lra].
    replace (c / c) with 1 by (field; lra). rewrite atan_1. field. lra. }
  assert (Hf2 : spec_frequency targetRate (mkRoot 0 0.99) = 2000).
  { unfold spec_frequency, Math_atan2, targetRate; cbn [real imag].
    destruct (Rlt_dec 0 0) as [Hn|_]; [lra|].
    destruct (Rlt_dec 0 0.99) as [_|Hn]; [|lra]. field. lra. }
  assert (Hb1 : 0 < spec_bandwidth targetRate (mkRoot c c) < 600)
    by (unfold spec_bandwidth; rewrite Hrho1; apply pole_bandwidth; lra).
  assert (Hb2 : 0 < spec_bandwidth targetRate (mkRoot 0 0.99) < 600)
    by (unfold spec_bandwidth; rewrite Hrho2; apply pole_bandwidth; lra).
  assert (K1 : spec_keepsb targetRate (mkRoot c c) = true)
    by (apply spec_keepsb_true; unfold spec_keeps; rewrite Hf1; cbn [imag];
        repeat split; lra).
  assert (K2 : spec_keepsb targetRate (mkRoot c (- c)) = false)
    by (apply not_true_is_false; rewrite spec_keepsb_true; unfold spec_keeps;
        cbn [imag]; lra).
  assert (K3 : spec_keepsb targetRate (mkRoot 0 0.99) = true)
    by (apply spec_keepsb_true; unfold spec_keeps; rewrite Hf2; cbn [imag];
        repeat split; lra).
  assert (K4 : spec_keepsb targetRate (mkRoot 0 (- 0.99)) = false)
    by (apply not_true_is_false; rewrite spec_keepsb_true; unfold spec_keeps;
        cbn [imag]; lra).
  rewrite collectFormants_filter. unfold sharpPoles. fold c.
  cbn [filter]. rewrite K1, K2, K3, K4. cbn [map sortFormants fold_right insertFormant].
  change (f_freq (rootFormant targetRate 0.1 (mkRoot c c)))
    with (spec_frequency targetRate (mkRoot c c)).
  change (f_freq (rootFormant targetRate 0.1 (mkRoot 0 0.99)))
    with (spec_frequency targetRate (mkRoot 0 0.99)).
  rewrite Hf1, Hf2.
  destruct (Rle_dec 1000 2000) as [_|Hn]; [|lra].
  cbn [map].
  change (f_freq (rootFormant targetRate 0.1 (mkRoot c c)))
    with (spec_frequency targetRate (mkRoot c c)).
  change (f_freq (rootFormant targetRate 0.1 (mkRoot 0 0.99)))
    with (spec_frequency targetRate (mkRoot 0 0.99)).
  change (f_magnitude (rootFormant targetRate 0.1 (mkRoot c c)))
    with (0.1 / Rmax (1 - spec_rho (mkRoot c c)) 0.01).
  change (f_magnitude (rootFormant targetRate 0.1 (mkRoot 0 0.99)))
    with (0.1 / Rmax (1 - spec_rho (mkRoot 0 0.99)) 0.01).
  rewrite Hf1, Hf2, Hrho1, Hrho2.
  rewrite (Rmax_left (1 - 0.9) 0.01) by lra.
  rewrite (Rmax_left (1 - 0.99) 0.01) by lra.
  unfold sharpSecondFormant.
  replace (0.1 / (1 - 0.9)) with 1 by lra.
  replace (0.1 / (1 - 0.99)) with 10 by lra.
  reflexivity.
Qed.

(** The frame [sharpSecondFormant]: the point of F2 is louder than the point
    of F1 before the global pass. *)
Lemma sharpSecondFormant_raw :
  validFrames sharpSecondFormant /\
  exists p1 p2 p3,
    rawTracks playerAnalyzer sharpSecondFormant = mkTraj [p1] [p2] [p3] /\
    amp p1 < amp p2 /\ 0 < amp p2.
Proof.
  split; [repeat constructor; simpl; lra|].
  unfold rawTracks, sharpSecondFormant. cbn [trackLoop].
  unfold trackFrame, initialTrack. cbn [prevFreqs prevMags trajectories].
  rewrite smooth_slots. unfold smoothedSlot.
  cbn [nth_error frequencies magnitudes orZero fst snd].
  destruct (Rlt_dec 0 1000) as [_|Hn]; [|lra].
  destruct (Rlt_dec 0 2000) as [_|Hn]; [|lra].
  cbn [fst snd nth F1 F2 F3 app].
  match goal with
  | |- context [Math_max_list [?g0; ?g1; ?g2] 0.001] =>
    destruct (maxMag_bounds g0 g1 g2) as [HM _];
    set (maxMag := Math_max_list [g0; g1; g2] 0.001) in *
  end.
  do 3 eexists. split; [reflexivity|]. cbn [amp].
  assert (Hinv : 0 < / maxMag) by (apply Rinv_0_lt_compat; exact HM).
  unfold smoothing, weightF1, weightF2, Rdiv. nra.
Qed.

(** C1, as stated, fails: an utterance that is not silent, and whose maximum
    amplitude after the global pass is below 1.0.  Its single frame has the
    two formant candidates that the selector makes of the poles [sharpPoles]:
    1000 and 2000 Hz, the second ten times as sharp as the first.  The
    loudest point is then on F2 and ends at 0.7. *)
Lemma sharpSecondFormant_counterexample :
  [mkFrame
     (map f_freq (sortFormants (collectFormants targetRate 0.1 sharpPoles)))
     (map f_magnitude (sortFormants (collectFormants targetRate 0.1 sharpPoles)))]
  = sharpSecondFormant /\
  validFrames sharpSecondFormant /\
  0 < globalMaxOf (rawTracks playerAnalyzer sharpSecondFormant) /\
  globalMaxOf (analyzeFrames playerAnalyzer sharpSecondFormant) < 1.
Proof.
  split; [exact sharpPoles_selected|].
  destruct sharpSecondFormant_raw as [Hv [p1 [p2 [p3 [Hraw [Hlt Hpos]]]]]].
  pose proof (rawTracks_inRange playerAnalyzer _ Hv) as Hin.
  destruct (globalMaxOf_ge (rawTracks playerAnalyzer sharpSecondFormant)) as [_ Hge].
  assert (Hp2 : amp p2 <= globalMaxOf (rawTracks playerAnalyzer sharpSecondFormant)).
  { apply Hge. unfold allPoints. rewrite Hraw. cbn. tauto. }
  assert (HG : 0 < globalMaxOf (rawTracks playerAnalyzer sharpSecondFormant)) by lra.
  split; [exact Hv|]. split; [exact HG|].
  destruct (normalized_max _ Hin HG) as [Hle Hiff].
  unfold analyzeFrames.
  destruct (Req_dec_T
              (globalMaxOf (normalizeAmplitudes
                              (rawTracks playerAnalyzer sharpSecondFormant))) 1)
    as [Hone|Hne]; [|lra].
  apply Hiff in Hone. destruct Hone as [p [Hp Hamp]].
  rewrite Hraw in Hp. cbn in Hp. destruct Hp as [<-|[]]. lra.
Qed.

(** C1, amended.  For an utterance that is not silent, the global pass sets
    every point to [pow(amp / G, 0.6)] times the weight of its tier, [G]
    being the maximum over the three tracks before the pass.  Some point
    held that maximum, and each point that held it ends exactly at the
    weight of its own tier: 1.0 on F1, 0.7 on F2, 0.4 on F3.  No point of
    any track exceeds the weight of its tier.  The maximum after the pass is
    at most 1.0, and it is 1.0 exactly when a point of F1 held the maximum
    before the pass.  The frames that [analyze] produces satisfy the
    hypothesis on the candidates. *)
Theorem normalizeAmplitudes_peak_and_bounds (an : Analyzer)
    (frames : list FrameFormants) :
  validFrames frames ->
  0 < globalMaxOf (rawTracks an frames) ->
  let raw := rawTracks an frames in
  let G := globalMaxOf raw in
  let post := analyzeFrames an frames in
  F1 post = map (normalizePoint G weightF1) (F1 raw) /\
  F2 post = map (normalizePoint G weightF2) (F2 raw) /\
  F3 post = map (normalizePoint G weightF3) (F3 raw) /\
  (exists p, In p (allPoints raw) /\ amp p = G) /\
  (forall p, In p (F1 raw) -> amp p = G -> amp (normalizePoint G weightF1 p) = 1.0) /\
  (forall p, In p (F2 raw) -> amp p = G -> amp (normalizePoint G weightF2 p) = 0.7) /\
  (forall p, In p (F3 raw) -> amp p = G -> amp (normalizePoint G weightF3 p) = 0.4) /\
  Forall (fun p => amp p <= 1.0) (F1 post) /\
  Forall (fun p => amp p <= 0.7) (F2 post) /\
  Forall (fun p => amp p <= 0.4) (F3 post) /\
  globalMaxOf post <= 1.0 /\
  (globalMaxOf post = 1.0 <-> exists p, In p (F1 raw) /\ amp p = G) /\
  (forall audio, validFrames (framesOf an audio)).
Proof.
  intros Hv HG. cbv zeta.
  pose proof (rawTracks_inRange an frames Hv) as Hin.
  pose proof (normalizeAmplitudes_inRange _ Hin) as [P1 [P2 P3]].
  destruct (normalized_max _ Hin HG) as [Hle Hiff].
  destruct (globalMaxOf_ge (rawTracks an frames)) as [_ Hge].
  unfold allPoints in Hge.
  destruct Hin as [R1 [R2 R3]].
  unfold analyzeFrames in *.
  rewrite (normalizeAmplitudes_loud _ HG) at 1 2 3. cbn [F1 F2 F3].
  split; [reflexivity|]. split; [reflexivity|]. split; [reflexivity|].
  split; [apply globalMaxOf_attained; exact HG|].
  rewrite Forall_forall in R1, R2, R3.
  split; [|split; [|split]].
  - intros p Hp Hamp.
    destruct (normalizePoint_range _ weightF1 weightF1 p HG) as [_ [Heq _]];
      [unfold weightF1; lra|apply R1; exact Hp|lra|].
    rewrite (Heq Hamp). reflexivity.
  - intros p Hp Hamp.
    destruct (normalizePoint_range _ weightF2 weightF2 p HG) as [_ [Heq _]];
      [unfold weightF2; lra|apply R2; exact Hp|lra|].
    rewrite (Heq Hamp). reflexivity.
  - intros p Hp Hamp.
    destruct (normalizePoint_range _ weightF3 weightF3 p HG) as [_ [Heq _]];
      [unfold weightF3; lra|apply R3; exact Hp|lra|].
    rewrite (Heq Hamp). reflexivity.
  - split; [eapply Forall_impl; [|exact P1]; intros p [_ [_ Hp]]; exact Hp|].
    split; [eapply Forall_impl; [|exact P2]; intros p [_ [_ Hp]]; exact Hp|].
    split; [eapply Forall_impl; [|exact P3]; intros p [_ [_ Hp]]; exact Hp|].
    replace 1.0 with 1 by lra.
    split; [exact Hle|]. split; [exact Hiff|].
    intros audio. apply framesOf_valid.
Qed.

(** The theorem applies to the frame [sharpSecondFormant]. *)
Lemma normalizeAmplitudes_peak_and_bounds_witness :
  validFrames sharpSecondFormant /\
  0 < globalMaxOf (rawTracks playerAnalyzer sharpSecondFormant) /\
  Forall (fun p => amp p <= 0.7)
         (F2 (analyzeFrames playerAnalyzer sharpSecondFormant)).
Proof.
  destruct sharpSecondFormant_raw as [Hv [p1 [p2 [p3 [Hraw [Hlt Hpos]]]]]].
  assert (HG : 0 < globalMaxOf (rawTracks playerAnalyzer sharpSecondFormant)).
  { destruct (globalMaxOf_ge (rawTracks playerAnalyzer sharpSecondFormant))
      as [_ Hge].
    apply Rlt_le_trans with (amp p2); [exact Hpos|].
    apply Hge. unfold allPoints. rewrite Hraw. cbn. tauto. }
  split; [exact Hv|]. split; [exact HG|].
  destruct (normalizeAmplitudes_peak_and_bounds playerAnalyzer
              sharpSecondFormant Hv HG)
    as (_ & _ & _ & _ & _ & _ & _ & _ & Hbound & _).
  exact Hbound.
Defined.

(** *** Well-formed trajectories of the analyzer *)

Lemma increasing_sorted (f : nat -> R) :
  (forall i j, (i < j)%nat -> f i < f j) ->
  forall n start, StronglySorted Rlt (map f (seq start n)).
Proof.
  intros Hmono. induction n as [|n IH]; intros start; cbn [seq map];
    constructor; [apply IH|].
  rewrite Forall_map. apply Forall_forall. intros k Hk.
  apply in_seq in Hk. apply Hmono. lia.
Qed.

Lemma hopTime_increasing (an : Analyzer) :
  (0 < hopSize an)%nat ->
  forall i j, (i < j)%nat -> hopTime an i < hopTime an j.
Proof.
  intros Hh i j Hij. unfold hopTime, targetRate, Rdiv.
  apply Rmult_lt_compat_r; [lra|].
  apply lt_INR. apply Nat.mul_lt_mono_pos_r; assumption.
Qed.

Lemma pointInRange_weaken (w : R) (p : Point) :
  w <= 1 -> pointInRange w p -> pointInRange 1 p.
Proof. unfold pointInRange. intros Hw [Hf [Ha Hb]]. repeat split; lra. Qed.

Lemma normalizeAmplitudes_times (T : Trajectories) :
  map t (F1 (normalizeAmplitudes T)) = map t (F1 T) /\
  map t (F2 (normalizeAmplitudes T)) = map t (F2 T) /\
  map t (F3 (normalizeAmplitudes T)) = map t (F3 T).
Proof.
  unfold normalizeAmplitudes.
  destruct (Rlt_dec 0 (globalMaxOf T)); cbn [F1 F2 F3];
    rewrite ?times_normalize; repeat split.
Qed.

Lemma map_eq_length {A B : Type} (f : A -> B) (l1 l2 : list A) :
  map f l1 = map f l2 -> length l1 = length l2.
Proof.
  intros Heq. rewrite <- (length_map f l1), <- (length_map f l2), Heq. reflexivity.
Qed.

(** The tracks that [analyzeFrames] returns: one point per frame on each
    track, at the hop times, in range. *)
Lemma analyzeFrames_wellFormed (an : Analyzer) (frames : list FrameFormants) :
  (0 < hopSize an)%nat -> validFrames frames ->
  let T := analyzeFrames an frames in
  wellFormed (F1 T) (F2 T) (F3 T) /\
  length (F1 T) = length frames /\
  length (F2 T) = length frames /\
  length (F3 T) = length frames.
Proof.
  intros Hh Hv. cbv zeta. unfold analyzeFrames, rawTracks.
  destruct (rawTracks_inv an frames Hv) as [_ [Ht1 [Ht2 [Ht3 Hr]]]].
  pose proof (normalizeAmplitudes_inRange _ Hr) as [P1 [P2 P3]].
  destruct (normalizeAmplitudes_times
              (trajectories (trackLoop an 0 frames initialTrack)))
    as [E1 [E2 E3]].
  rewrite <- E1 in Ht1. rewrite <- E2 in Ht2. rewrite <- E3 in Ht3.
  set (T := normalizeAmplitudes _) in *.
  assert (L1 : length (F1 T) = length frames)
    by (rewrite <- (length_map t), Ht1, length_map, length_seq; reflexivity).
  assert (L2 : length (F2 T) = length frames)
    by (rewrite <- (length_map t), Ht2, length_map, length_seq; reflexivity).
  assert (L3 : length (F3 T) = length frames)
    by (rewrite <- (length_map t), Ht3, length_map, length_seq; reflexivity).
  split; [|repeat split; assumption].
  unfold wellFormed. rewrite Ht1, Ht2, Ht3, L1, L2, L3.
  repeat split.
  - apply increasing_sorted, hopTime_increasing, Hh.
  - rewrite !Forall_app. repeat split;
      [eapply Forall_impl; [|exact P1]|eapply Forall_impl; [|exact P2]
      |eapply Forall_impl; [|exact P3]];
      intros p; apply pointInRange_weaken;
      unfold weightF1, weightF2, weightF3; lra.
Qed.

Lemma length_preEmphasis (audio : list R) (coeff : R) :
  length (preEmphasis audio coeff) = length audio.
Proof. unfold preEmphasis. rewrite length_map, length_seq. reflexivity. Qed.

(** [analyze] returns whenever the resampling does, with one point per hop
    on each track. *)
Lemma analyze_returns (an : Analyzer) (audio : list R) (rate : R)
    (resampled : list R) :
  (0 < hopSize an)%nat ->
  resample audio rate targetRate = Returned resampled ->
  exists T,
    analyze an audio rate = Returned T /\
    wellFormed (F1 T) (F2 T) (F3 T) /\
    length (F1 T) = (length resampled / hopSize an)%nat /\
    length (F2 T) = (length resampled / hopSize an)%nat /\
    length (F3 T) = (length resampled / hopSize an)%nat.
Proof.
  intros Hh Hres. unfold analyze. rewrite Hres. cbn [bind].
  eexists. split; [reflexivity|].
  destruct (analyzeFrames_wellFormed an (framesOf an (preEmphasis resampled 0.9)) Hh
              (framesOf_valid an _)) as [Hwf [L1 [L2 L3]]].
  assert (Hn : length (framesOf an (preEmphasis resampled 0.9))
               = (length resampled / hopSize an)%nat).
  { unfold framesOf, numHopsOf.
    rewrite length_map, length_seq, length_preEmphasis. reflexivity. }
  rewrite Hn in L1, L2, L3.
  split; [exact Hwf|]. repeat split; assumption.
Qed.

Lemma analyze_wellFormed (an : Analyzer) (audio : list R) (rate : R) :
  (0 < hopSize an)%nat ->
  match analyze an audio rate with
  | Returned T => wellFormed (F1 T) (F2 T) (F3 T)
  | Thrown _ => True
  end.
Proof.
  intros Hh. destruct (resample audio rate targetRate) as [resampled|e] eqn:Hres.
  - destruct (analyze_returns an audio rate resampled Hh Hres) as [T [-> [Hwf _]]].
    exact Hwf.
  - unfold analyze. rewrite Hres. exact I.
Qed.

End LPCFacts.

(* ------------------------------------------------------------------ *)
(** ** The phoneme-table fallback *)

Module PhonemeFacts.
Import JSMath JSObject PhonemeMapper.
Local Open Scope R_scope.
Local Open Scope string_scope.

(** The loop over the phonemes advances [currentTime] by each duration. *)
Lemma phonemeTargets_endTime (phonemes : list PhonemeUnit) :
  forall currentTime,
    snd (phonemeTargets phonemes currentTime) = currentTime + sumDurations phonemes.
Proof.
  induction phonemes as [|u rest IH]; intros c; simpl.
  - lra.
  - specialize (IH (c + duration u)).
    destruct (phonemeTargets rest (c + duration u)) as [targets endTime].
    simpl in *. lra.
Qed.

Lemma phonemesToTrajectory_duration (phonemes : list PhonemeUnit) :
  totalDuration (phonemesToTrajectory phonemes) = sumDurations phonemes + 0.06.
Proof.
  unfold phonemesToTrajectory, allTargets.
  pose proof (phonemeTargets_endTime phonemes 0.02) as Hend.
  destruct (phonemeTargets phonemes 0.02) as [targets currentTime].
  simpl in *. lra.
Qed.

(** C3, as stated, fails: for "hello world" the total duration of the
    trajectory is not the sum of the nine phoneme durations plus 0.04 s. *)
Lemma helloWorld_duration_counterexample :
  exists phonemes,
    textToPhonemes "hello world" = Returned phonemes /\
    totalDuration (phonemesToTrajectory phonemes) <> sumDurations phonemes + 0.04.
Proof.
  exists helloWorld. split; [reflexivity|].
  rewrite phonemesToTrajectory_duration. lra.
Qed.

(** C3, amended.  [textToPhonemes("hello world")] returns exactly the nine
    units HH AH L OW, a silence, W ER L D, each with the duration of its
    phonetic class (0.06 s for the silence between the words), and the total
    duration of [phonemesToTrajectory] is the sum of the phoneme durations
    plus 0.06 s: the 0.02 s before the first phoneme and the 0.04 s after
    the last one. *)
Theorem helloWorld_phonemes_and_duration :
  textToPhonemes "hello world" = Returned helloWorld /\
  length helloWorld = 9%nat /\
  Forall (fun u => duration u = if match phoneme u with P_SIL => true | _ => false end
                                then 0.06 else getPhonemeDuration (phoneme u))
         helloWorld /\
  totalDuration (phonemesToTrajectory helloWorld) = sumDurations helloWorld + 0.06 /\
  (forall phonemes,
      totalDuration (phonemesToTrajectory phonemes) = sumDurations phonemes + 0.06).
Proof.
  split; [reflexivity|]. split; [reflexivity|].
  split; [repeat constructor|].
  split; [apply phonemesToTrajectory_duration|].
  exact phonemesToTrajectory_duration.
Qed.

(** The two targets around a sample are targets of the list (or the
    silence that stands for a missing one). *)
Lemma findBracket_In (targets : list Target) (t : R) (a b : Target) :
  findBracket targets t = Some (a, b) -> In a targets /\ In b targets.
Proof.
  induction targets as [|x rest IH]; simpl; [discriminate|].
  destruct rest as [|y rest']; [discriminate|].
  intros Hf.
  assert (Hrec : findBracket (y :: rest') t = Some (a, b) ->
                 In a (x :: y :: rest') /\ In b (x :: y :: rest')).
  { intros Hr. destruct (IH Hr) as [Ha Hb]. split; right; assumption. }
  destruct (Rle_dec (time x) t); [|auto].
  destruct (Rlt_dec t (time y)); [|auto].
  injection Hf as <- <-. split; [left; reflexivity|right; left; reflexivity].
Qed.

Lemma last_In_or_default {A : Type} (l : list A) (d : A) :
  last l d = d \/ In (last l d) l.
Proof.
  induction l as [|x l IH]; [left; reflexivity|].
  destruct l as [|y l']; [right; left; reflexivity|].
  destruct IH as [Hd|Hin].
  - left. exact Hd.
  - right. right. exact Hin.
Qed.

Lemma surrounding_targets (P : Target -> Prop) (targets : list Target) (t : R) :
  Forall P targets -> P (silence 0) ->
  let pn := match findBracket targets t with
            | Some pn => pn
            | None => (hd (silence 0) targets, last targets (silence 0))
            end in
  P (fst pn) /\ P (snd pn).
Proof.
  intros Hall Hsil. rewrite Forall_forall in Hall.
  destruct (findBracket targets t) as [[a b]|] eqn:Hf; simpl.
  - destruct (findBracket_In _ _ _ _ Hf) as [Ha Hb]. split; apply Hall; assumption.
  - split.
    + destruct targets as [|x rest]; [exact Hsil|]. apply Hall. left. reflexivity.
    + destruct (last_In_or_default targets (silence 0)) as [-> | Hin];
        [exact Hsil|apply Hall; exact Hin].
Qed.

(** Between targets of amplitude 0 every sample has amplitude 0. *)
Lemma samplePoints_silent (targets : list Target) (t : R) :
  Forall (fun x => tamp x = 0) targets ->
  let '(p1, p2, p3) := samplePoints targets t in
  Traj.amp p1 = 0 /\ Traj.amp p2 = 0 /\ Traj.amp p3 = 0.
Proof.
  intros Hall. unfold samplePoints.
  pose proof (surrounding_targets (fun x => tamp x = 0) targets t Hall eq_refl) as Hpn.
  destruct (match findBracket targets t with
            | Some pn => pn
            | None => (hd (silence 0) targets, last targets (silence 0))
            end) as [prevTarget nextTarget].
  simpl in Hpn. destruct Hpn as [Hp Hn]. simpl.
  rewrite Hp, Hn. repeat split; ring.
Qed.

(** The trajectory of the empty phoneme sequence lasts 0.06 s and is silent. *)
Lemma empty_trajectory_silent :
  let T := phonemesToTrajectory [] in
  totalDuration T = 0.06 /\
  Forall (fun p => Traj.amp p = 0)
         (trajectory (F1 (formants T)) ++ trajectory (F2 (formants T))
          ++ trajectory (F3 (formants T))).
Proof.
  split.
  - rewrite phonemesToTrajectory_duration. simpl. lra.
  - unfold phonemesToTrajectory, allTargets. cbn [phonemeTargets app].
    cbn [formants F1 F2 F3 trajectory].
    set (targets := [silence 0; silence (0.02 + 0.02)]).
    assert (Hall : Forall (fun x => tamp x = 0) targets)
      by (repeat constructor).
    repeat rewrite Forall_app.
    repeat rewrite Forall_map. 
    repeat split; apply Forall_forall; intros i _;
      pose proof (samplePoints_silent targets (INR i * sampleInterval) Hall) as Hs;
      destruct (samplePoints targets (INR i * sampleInterval)) as [[p1 p2] p3];
      simpl; tauto.
Qed.

(** *** Well-formed trajectories of the phoneme mapping *)

Lemma PHONEME_FORMANTS_nonneg (p : Phoneme) :
  0 <= f1 (getFormants p) /\ 0 <= f2 (getFormants p) /\ 0 <= f3 (getFormants p).
Proof. destruct p; cbn; lra. Qed.

Lemma orDefault_nonneg (x d : R) : 0 <= x -> 0 <= d -> 0 <= orDefault x d.
Proof. intros Hx Hd. unfold orDefault. destruct (Req_dec_T x 0); assumption. Qed.

Lemma silence_inRange (time : R) : targetInRange (silence time).
Proof. unfold targetInRange, silence; cbn. lra. Qed.

Lemma phonemeTargets_inRange (phonemes : list PhonemeUnit) :
  forall currentTime,
    Forall targetInRange (fst (phonemeTargets phonemes currentTime)).
Proof.
  induction phonemes as [|u rest IH]; intros c; cbn [phonemeTargets];
    [constructor|].
  specialize (IH (c + duration u)).
  destruct (phonemeTargets rest (c + duration u)) as [targets endTime].
  cbn [fst] in *. constructor; [|exact IH].
  destruct (PHONEME_FORMANTS_nonneg (phoneme u)) as [H1 [H2 H3]].
  unfold targetInRange; cbn [tf1 tf2 tf3 tamp].
  repeat split; try (apply orDefault_nonneg; [assumption|lra]);
    destruct (voiced (getFormants (phoneme u))); lra.
Qed.

Lemma allTargets_inRange (phonemes : list PhonemeUnit) :
  Forall targetInRange (fst (allTargets phonemes)).
Proof.
  unfold allTargets.
  pose proof (phonemeTargets_inRange phonemes 0.02) as Hin.
  destruct (phonemeTargets phonemes 0.02) as [targets currentTime].
  cbn [fst] in *. constructor; [apply silence_inRange|].
  apply Forall_app. split; [exact Hin|].
  constructor; [apply silence_inRange|constructor].
Qed.

(** Cosine easing stays between the two targets. *)
Lemma eased_between (a b s lo hi : R) :
  lo <= a <= hi -> lo <= b <= hi -> 0 <= s <= 1 -> lo <= a + s * (b - a) <= hi.
Proof. intros Ha Hb Hs. split; nra. Qed.

Lemma eased_nonneg (a b s : R) :
  0 <= a -> 0 <= b -> 0 <= s <= 1 -> 0 <= a + s * (b - a).
Proof. intros Ha Hb Hs. nra. Qed.

Lemma samplePoints_inRange (targets : list Target) (tau : R) :
  Forall targetInRange targets ->
  let '(p1, p2, p3) := samplePoints targets tau in
  Traj.t p1 = tau /\ Traj.t p2 = tau /\ Traj.t p3 = tau /\
  Traj.pointInRange 1 p1 /\ Traj.pointInRange 1 p2 /\ Traj.pointInRange 1 p3.
Proof.
  intros Hall. unfold samplePoints.
  pose proof (surrounding_targets targetInRange targets tau Hall (silence_inRange 0))
    as Hpn.
  destruct (match findBracket targets tau with
            | Some pn => pn
            | None => (hd (silence 0) targets, last targets (silence 0))
            end) as [prevTarget nextTarget].
  cbn [fst snd] in Hpn.
  destruct Hpn as [[Hp1 [Hp2 [Hp3 Hpa]]] [Hn1 [Hn2 [Hn3 Hna]]]].
  set (alpha := if Rlt_dec 0 (time nextTarget - time prevTarget)
                then (tau - time prevTarget) / (time nextTarget - time prevTarget)
                else 0).
  assert (Hs : 0 <= 0.5 - 0.5 * cos (alpha * PI) <= 1)
    by (pose proof (COS_bound (alpha * PI)); lra).
  set (s := 0.5 - 0.5 * cos (alpha * PI)) in *.
  pose proof (eased_between (tamp prevTarget) (tamp nextTarget) s 0 1 Hpa Hna Hs)
    as Hamp.
  pose proof (eased_nonneg _ _ s Hp1 Hn1 Hs).
  pose proof (eased_nonneg _ _ s Hp2 Hn2 Hs).
  pose proof (eased_nonneg _ _ s Hp3 Hn3 Hs).
  unfold Traj.pointInRange, FORMANT_AMPLITUDES_F1, FORMANT_AMPLITUDES_F2,
    FORMANT_AMPLITUDES_F3; cbn [Traj.t Traj.freq Traj.amp].
  repeat split; try reflexivity; try assumption; nra.
Qed.

Lemma sampleTime_increasing (i j : nat) :
  (i < j)%nat -> INR i * sampleInterval < INR j * sampleInterval.
Proof.
  intros Hij. unfold sampleInterval. apply lt_INR in Hij. lra.
Qed.

(** Whatever the phoneme sequence, [phonemesToTrajectory] returns three
    tracks sampled at the same increasing times, in range. *)
Lemma phonemesToTrajectory_wellFormed (phonemes : list PhonemeUnit) :
  let T := formants (phonemesToTrajectory phonemes) in
  Traj.wellFormed (trajectory (F1 T)) (trajectory (F2 T)) (trajectory (F3 T)).
Proof.
  cbv zeta. unfold phonemesToTrajectory.
  pose proof (allTargets_inRange phonemes) as Hall.
  destruct (allTargets phonemes) as [targets currentTime]. cbn [fst] in Hall.
  cbn [formants F1 F2 F3 trajectory].
  set (n := Z.to_nat (Math_ceil ((currentTime + 0.04) / sampleInterval) + 1)).
  assert (Hpts : forall i,
             let sp := samplePoints targets (INR i * sampleInterval) in
             Traj.t (fst (fst sp)) = INR i * sampleInterval /\
             Traj.t (snd (fst sp)) = INR i * sampleInterval /\
             Traj.t (snd sp) = INR i * sampleInterval /\
             Traj.pointInRange 1 (fst (fst sp)) /\
             Traj.pointInRange 1 (snd (fst sp)) /\
             Traj.pointInRange 1 (snd sp)).
  { intros i. cbv zeta.
    pose proof (samplePoints_inRange targets (INR i * sampleInterval) Hall) as Hs.
    destruct (samplePoints targets (INR i * sampleInterval)) as [[p1 p2] p3].
    exact Hs. }
  assert (T1 : map Traj.t (map (fun s => fst (fst s))
                             (map (fun i => samplePoints targets (INR i * sampleInterval))
                                  (seq 0 n)))
               = map (fun i => INR i * sampleInterval) (seq 0 n)).
  { rewrite !map_map. apply map_ext. intros i. apply (Hpts i). }
  assert (T2 : map Traj.t (map (fun s => snd (fst s))
                             (map (fun i => samplePoints targets (INR i * sampleInterval))
                                  (seq 0 n)))
               = map (fun i => INR i * sampleInterval) (seq 0 n)).
  { rewrite !map_map. apply map_ext. intros i. apply (Hpts i). }
  assert (T3 : map Traj.t (map (fun s => snd s)
                             (map (fun i => samplePoints targets (INR i * sampleInterval))
                                  (seq 0 n)))
               = map (fun i => INR i * sampleInterval) (seq 0 n)).
  { rewrite !map_map. apply map_ext. intros i. apply (Hpts i). }
  unfold Traj.wellFormed. rewrite T1, T2, T3.
  rewrite !length_map.
  repeat split.
  - apply LPCFacts.increasing_sorted. exact sampleTime_increasing.
  - rewrite !Forall_app, !Forall_map.
    repeat split; apply Forall_forall; intros i _; apply (Hpts i).
Qed.

End PhonemeFacts.

(* ------------------------------------------------------------------ *)
(** ** The orchestrator *)

Module PlayerFacts.
Import PhonemeMapper FormantPlayer.
Local Open Scope R_scope.
Local Open Scope string_scope.

(** C2 holds of the specification but not of the code.  The word
    "constructor" is looked up in the object literal [WORD_PRONUNCIATIONS],
    which inherits a member of that name from [Object.prototype]; the value
    is truthy, and iterating over it throws a TypeError.  With no waveform
    source the [try] block of [generateFromText] runs the phoneme mapping and
    throws, the [catch] block runs it again on the same text and throws again,
    and the exception escapes to the caller: no trajectory is returned and
    [utteranceData] is left as it was.  The same happens when the waveform
    source is ready but its synthesis fails. *)
Theorem generateFromText_constructor_throws :
  textToPhonemes "constructor" = Thrown TypeError_notIterable /\
  generateFromText fallbackPlayer "constructor"
  = (mkPlayer false noWaveformSource None "constructor" None,
     Thrown TypeError_notIterable) /\
  snd (generateFromText failingSourcePlayer "the constructor")
  = Thrown TypeError_notIterable.
Proof. repeat split. Qed.





(** Every request with the empty text returns a trajectory when the phoneme
    mapping is what answers it. *)
Lemma generateWithPhonemeMapping_empty :
  exists u,
    generateWithPhonemeMapping "" = Returned u /\
    analysisMethod u = phoneme_mapping /\
    duration u = 0.06 /\
    Forall (fun p => Traj.amp p = 0)
           (trajectory (F1 (formants u)) ++ trajectory (F2 (formants u))
            ++ trajectory (F3 (formants u))).
Proof.
  eexists. split; [reflexivity|]. split; [reflexivity|].
  exact PhonemeFacts.empty_trajectory_silent.
Qed.

(** C8, as stated, fails: with no text and no waveform source, generation
    returns a trajectory. *)
Lemma emptyInput_counterexample :
  exists u, snd (generateFromText fallbackPlayer "") = Returned u.
Proof.
  destruct generateWithPhonemeMapping_empty as [u [Hu _]].
  exists u. unfold generateFromText. cbn [fallbackPlayer useLPCAnalysis andb].
  rewrite Hu. reflexivity.
Qed.

(** C8, amended.  The orchestrator has no empty-input failure: whatever the
    state of the player, a generate request with the empty text returns a
    trajectory and stores it.  It is either the LPC analysis of what the
    waveform source produced for that text, or the phoneme mapping of the
    empty text: a silent trajectory of total duration 0.06 s whose amplitudes
    are all 0. *)
Theorem generateFromText_empty_returns (pl : Player) :
  exists u,
    snd (generateFromText pl "") = Returned u /\
    utteranceData (fst (generateFromText pl "")) = Some u /\
    (analysisMethod u = lpc \/
     (analysisMethod u = phoneme_mapping /\
      duration u = 0.06 /\
      Forall (fun p => Traj.amp p = 0)
             (trajectory (F1 (formants u)) ++ trajectory (F2 (formants u))
              ++ trajectory (F3 (formants u))))).
Proof.
  destruct generateWithPhonemeMapping_empty as [u [Hu Hprops]].
  unfold generateFromText.
  destruct (useLPCAnalysis pl && isReady (ttsCapture pl)).
  - unfold generateWithLPC.
    destruct (synthesize (ttsCapture pl) "") as [audio|e].
    + destruct (LPC.analyze _ audio _) as [T|e]; cbn [bind].
      * eexists. split; [reflexivity|]. split; [reflexivity|]. left. reflexivity.
      * rewrite Hu. exists u. split; [reflexivity|]. split; [reflexivity|].
        right. exact Hprops.
    + rewrite Hu. exists u. split; [reflexivity|]. split; [reflexivity|].
      right. exact Hprops.
  - rewrite Hu. exists u. split; [reflexivity|]. split; [reflexivity|].
    right. exact Hprops.
Qed.

(** *** The LPC path *)

Lemma generateFromText_lpc (pl : Player) (text : string) (audio : list R)
    (T : Traj.Trajectories) :
  useLPCAnalysis pl = true ->
  isReady (ttsCapture pl) = true ->
  synthesize (ttsCapture pl) text = Returned audio ->
  LPC.analyze LPC.playerAnalyzer audio (getSampleRate (ttsCapture pl)) = Returned T ->
  snd (generateFromText pl text)
  = Returned
      (mkUtterance "lpc-analyzed" text
         (INR (length audio) / getSampleRate (ttsCapture pl))
         (mkTracks (mkTrack "#e63946" (Traj.F1 T))
                   (mkTrack "#457b9d" (Traj.F2 T))
                   (mkTrack "#2a9d8f" (Traj.F3 T)))
         (Some audio) (Some (getSampleRate (ttsCapture pl))) lpc).
Proof.
  intros Hlpc Hready Hsyn Han.
  unfold generateFromText, generateWithLPC.
  rewrite Hlpc, Hready, Hsyn, Han. reflexivity.
Qed.

Lemma playerAnalyzer_hop : (0 < LPC.hopSize LPC.playerAnalyzer)%nat.
Proof. cbn. lia. Qed.

(** The source of [shortSourcePlayer]: 500 samples at 22050 Hz are 181
    samples at 8000 Hz. *)
Lemma shortSource_resampled :
  exists resampled,
    LPC.resample (repeat 0 500) 22050 LPC.targetRate = Returned resampled /\
    length resampled = 181%nat.
Proof.
  unfold LPC.resample, LPC.targetRate.
  destruct (Req_dec_T 22050 8000) as [Heq|_]; [lra|].
  destruct (Req_dec_T (22050 / 8000) 0) as [Heq|_]; [lra|].
  rewrite repeat_length.
  assert (Hfloor : JSMath.Math_floor (INR 500 / (22050 / 8000)) = 181%Z).
  { unfold JSMath.Math_floor. symmetry. apply Int_part_spec.
    rewrite INR_IZR_INZ. change (Z.of_nat 500) with 500%Z. lra. }
  rewrite Hfloor. cbn [Z.ltb Z.compare].
  eexists. split; [reflexivity|].
  rewrite length_map, length_seq. reflexivity.
Qed.

Lemma shortSource_analyzed :
  LPC.analyze LPC.playerAnalyzer (repeat 0 500) 22050
  = Returned (Traj.mkTraj [] [] []).
Proof.
  destruct shortSource_resampled as [resampled [Hres Hlen]].
  unfold LPC.analyze. rewrite Hres. cbn [bind].
  unfold LPC.framesOf, LPC.numHopsOf.
  rewrite LPCFacts.length_preEmphasis, Hlen.
  change (181 / LPC.hopSize LPC.playerAnalyzer)%nat with 0%nat.
  cbn [seq map]. unfold LPC.analyzeFrames, LPC.rawTracks. cbn [LPC.trackLoop].
  unfold LPC.normalizeAmplitudes, LPC.initialTrack. cbn [LPC.trajectories].
  destruct (Rlt_dec 0 _); reflexivity.
Qed.

(** C4, as stated, fails: the waveform source returns 500 samples at
    22050 Hz, which are 181 samples at the analysis rate, fewer than the 512
    of one window; the analysis does not fail but returns three empty tracks,
    and the orchestrator returns them tagged [lpc] without running the
    fallback. *)
Lemma shortBuffer_counterexample :
  exists resampled,
    LPC.resample (repeat 0 500) 22050 LPC.targetRate = Returned resampled /\
    (length resampled < LPC.windowSize LPC.playerAnalyzer)%nat /\
    LPC.analyze LPC.playerAnalyzer (repeat 0 500) 22050
    = Returned (Traj.mkTraj [] [] []) /\
    snd (generateFromText shortSourcePlayer "hi")
    = Returned
        (mkUtterance "lpc-analyzed" "hi" (INR 500 / 22050)
           (mkTracks (mkTrack "#e63946" []) (mkTrack "#457b9d" [])
                     (mkTrack "#2a9d8f" []))
           (Some (repeat 0 500)) (Some 22050) lpc).
Proof.
  destruct shortSource_resampled as [resampled [Hres Hlen]].
  exists resampled. split; [exact Hres|].
  split; [rewrite Hlen; cbn; lia|].
  split; [exact shortSource_analyzed|].
  rewrite (generateFromText_lpc shortSourcePlayer "hi" (repeat 0 500)
             (Traj.mkTraj [] [] []) eq_refl eq_refl eq_refl shortSource_analyzed).
  cbn [Traj.F1 Traj.F2 Traj.F3 ttsCapture shortSourcePlayer getSampleRate].
  rewrite repeat_length. reflexivity.
Qed.

(** C4, amended.  There is no short-signal failure: when the waveform source
    returns a buffer whose resampled length is below one analysis window
    (512 samples), the analysis returns a trajectory with
    [floor(length / 256)] points on each track, none or one, and the
    orchestrator returns that trajectory tagged [lpc]; the fallback path is
    not run. *)
Theorem short_buffer_analyzed (pl : Player) (text : string)
    (audio resampled : list R) :
  useLPCAnalysis pl = true ->
  isReady (ttsCapture pl) = true ->
  synthesize (ttsCapture pl) text = Returned audio ->
  LPC.resample audio (getSampleRate (ttsCapture pl)) LPC.targetRate
  = Returned resampled ->
  (length resampled < LPC.windowSize LPC.playerAnalyzer)%nat ->
  exists T u,
    LPC.analyze LPC.playerAnalyzer audio (getSampleRate (ttsCapture pl))
    = Returned T /\
    length (Traj.F1 T) = (length resampled / 256)%nat /\
    length (Traj.F2 T) = (length resampled / 256)%nat /\
    length (Traj.F3 T) = (length resampled / 256)%nat /\
    (length resampled / 256 <= 1)%nat /\
    snd (generateFromText pl text) = Returned u /\
    analysisMethod u = lpc /\
    trajectory (F1 (formants u)) = Traj.F1 T /\
    trajectory (F2 (formants u)) = Traj.F2 T /\
    trajectory (F3 (formants u)) = Traj.F3 T.
Proof.
  intros Hlpc Hready Hsyn Hres Hshort.
  destruct (LPCFacts.analyze_returns LPC.playerAnalyzer audio _ resampled
              playerAnalyzer_hop Hres) as [T [Han [_ [L1 [L2 L3]]]]].
  change (LPC.hopSize LPC.playerAnalyzer) with 256%nat in L1, L2, L3.
  change (LPC.windowSize LPC.playerAnalyzer) with 512%nat in Hshort.
  exists T. eexists.
  split; [exact Han|].
  split; [exact L1|]. split; [exact L2|]. split; [exact L3|].
  split.
  { apply Nat.lt_succ_r. apply Nat.Div0.div_lt_upper_bound. lia. }
  split; [apply (generateFromText_lpc pl text audio T); assumption|].
  repeat split.
Qed.

(** The theorem applies to the player [shortSourcePlayer]. *)
Lemma short_buffer_analyzed_witness :
  exists T u,
    LPC.analyze LPC.playerAnalyzer (repeat 0 500) 22050 = Returned T /\
    length (Traj.F1 T) = 0%nat /\
    snd (generateFromText shortSourcePlayer "hi") = Returned u /\
    analysisMethod u = lpc.
Proof.
  destruct shortSource_resampled as [resampled [Hres Hlen]].
  assert (Hshort : (length resampled < LPC.windowSize LPC.playerAnalyzer)%nat)
    by (rewrite Hlen; cbn; lia).
  destruct (short_buffer_analyzed shortSourcePlayer "hi" (repeat 0 500) resampled
              eq_refl eq_refl eq_refl Hres Hshort)
    as (T & u & Han & L1 & _ & _ & _ & Hgen & Hm & _).
  exists T, u. rewrite Hlen in L1.
  split; [exact Han|]. split; [exact L1|]. split; [exact Hgen|exact Hm].
Defined.

(** *** Every returned trajectory is well formed *)

Lemma generateWithPhonemeMapping_wellFormed (text : string) :
  match generateWithPhonemeMapping text with
  | Returned u =>
    Traj.wellFormed (trajectory (F1 (formants u))) (trajectory (F2 (formants u)))
                    (trajectory (F3 (formants u)))
  | Thrown _ => True
  end.
Proof.
  unfold generateWithPhonemeMapping, textToTrajectory.
  destruct (textToPhonemes text) as [phonemes|e]; cbn [bind]; [|exact I].
  cbn [formants]. apply PhonemeFacts.phonemesToTrajectory_wellFormed.
Qed.

Lemma store_snd (pl : Player) (an : option LPC.Analyzer) (text : string)
    (o : outcome Utterance) :
  snd (store pl an text o) = o.
Proof. destruct o; reflexivity. Qed.

Lemma generateFromText_wellFormed (pl : Player) (text : string) :
  match snd (generateFromText pl text) with
  | Returned u =>
    Traj.wellFormed (trajectory (F1 (formants u))) (trajectory (F2 (formants u)))
                    (trajectory (F3 (formants u)))
  | Thrown _ => True
  end.
Proof.
  pose proof (generateWithPhonemeMapping_wellFormed text) as Hpm.
  unfold generateFromText.
  destruct (useLPCAnalysis pl && isReady (ttsCapture pl)).
  - unfold generateWithLPC.
    destruct (synthesize (ttsCapture pl) text) as [audio|e];
      [|rewrite store_snd; exact Hpm].
    pose proof (LPCFacts.analyze_wellFormed LPC.playerAnalyzer audio
                  (getSampleRate (ttsCapture pl)) playerAnalyzer_hop) as Hwf.
    destruct (LPC.analyze LPC.playerAnalyzer audio (getSampleRate (ttsCapture pl)))
      as [T|e]; cbn [bind]; [|rewrite store_snd; exact Hpm].
    rewrite store_snd. exact Hwf.
  - destruct (generateWithPhonemeMapping text) as [u|e] eqn:Hgen.
    + rewrite store_snd. exact Hpm.
    + rewrite store_snd. exact I.
Qed.

(** C9.  Every trajectory returned by the LPC path or by the phoneme-mapping
    path, and so every trajectory a generate request returns, has three
    tracks F1, F2, F3 of equal length with the same point times, strictly
    increasing, frequencies that are not negative and amplitudes in
    [0, 1]. *)
Theorem returned_trajectories_wellFormed :
  (forall (sampleRate : R) (hop order : nat) (audio : list R) (rate : R),
      match LPC.analyze (LPC.new_LPCAnalyzer sampleRate (S hop) order) audio rate with
      | Returned T => Traj.wellFormed (Traj.F1 T) (Traj.F2 T) (Traj.F3 T)
      | Thrown _ => True
      end) /\
  (forall phonemes : list PhonemeUnit,
      let T := PhonemeMapper.formants (phonemesToTrajectory phonemes) in
      Traj.wellFormed (trajectory (F1 T)) (trajectory (F2 T)) (trajectory (F3 T))) /\
  (forall (pl : Player) (text : string),
      match snd (generateFromText pl text) with
      | Returned u =>
        Traj.wellFormed (trajectory (F1 (formants u)))
                        (trajectory (F2 (formants u)))
                        (trajectory (F3 (formants u)))
      | Thrown _ => True
      end).
Proof.
  split; [|split].
  - intros sampleRate hop order audio rate.
    apply LPCFacts.analyze_wellFormed. cbn. lia.
  - exact PhonemeFacts.phonemesToTrajectory_wellFormed.
  - exact generateFromText_wellFormed.
Qed.

End PlayerFacts.
